(** * Damage emitter block components

    A shallow embedding of [BP/scripts/custom_components/blocks/DamageEmitters.ts]
    and of the registration hook of [BP/scripts/main.ts], with the properties
    of the damage-on-step emitter proved over it.

    Conventions of the embedding.
    - JavaScript strings are [string]s; the tags and identifiers handled here
      are ASCII, where code units and bytes coincide.
    - The numbers the component ever holds are produced by [parseInt],
      [Math.floor] and [Math.max]: integral doubles, the two infinities and
      [NaN].  [number] has exactly these.  [parseInt] computes a
      mathematical integer and returns the double nearest to it
      ([to_double]): above 2^53 the integer is rounded, and from
      2^1024 - 2^970 on the result is an infinity.  The two zeros are not
      told apart ([Math.max] with 1 absorbs both).
    - A handler runs on the component instance and on the host's world; it may
      throw.  Handlers are written in a state-and-exception monad. *)

From Stdlib Require Import ZArith QArith Qround Lia Lqa Ascii String.
From stdpp Require Import base option list strings pretty gmap.

Open Scope Z_scope.

(** ** Completions: a call returns normally or throws *)

Inductive error :=
  | Error (message : string)
  | TypeError (message : string).

Inductive completion (A : Type) :=
  | Normal (a : A)
  | Throw (e : error).
Arguments Normal {A} a.
Arguments Throw {A} e.

(** ** Numbers *)

Inductive number :=
  | Int (z : Z)
  | NaN
  | Infinity
  | NegInfinity.

Module Math.

(** [Math.floor]: the identity on integral values, on the infinities and on
    [NaN]. *)
Definition floor (x : number) : number :=
  match x with
  | Int z => Int z
  | NaN => NaN
  | Infinity => Infinity
  | NegInfinity => NegInfinity
  end.

(** [Math.max]: [NaN] as soon as one argument is [NaN]; otherwise the
    larger one, with the infinities at the two ends. *)
Definition max (a b : number) : number :=
  match a, b with
  | NaN, _ | _, NaN => NaN
  | Infinity, _ | _, Infinity => Infinity
  | NegInfinity, y => y
  | x, NegInfinity => x
  | Int x, Int y => Int (Z.max x y)
  end.

End Math.

(** The double nearest to the integer [m], ties to the even significand:
    integers below 2^53 in absolute value are doubles; a larger one keeps
    the 53 leading bits of its absolute value, rounded on the bits dropped;
    what rounds to 2^1024 or more is an infinity. *)
Definition to_double (m : Z) : number :=
  let a := Z.abs m in
  if a <? 9007199254740992 then Int m
  else
    let e := Z.log2 a - 52 in
    let q := Z.shiftr a e in
    let r := a - Z.shiftl q e in
    let half := Z.shiftl 1 (e - 1) in
    let q' := if (half <? r) || ((r =? half) && Z.odd q) then q + 1 else q in
    let v := Z.shiftl q' e in
    if 2 ^ 1024 <=? v then (if m <? 0 then NegInfinity else Infinity)
    else Int (Z.sgn m * v).

(** The digits [Number.prototype.toString] prints for a positive integral
    double [z] of [n] decimal digits: the least number [k] of digits, and the
    integer [s] of [k] digits, such that [s] followed by zeros reads back as
    [z]; of two such [s] the one nearer to [z], the even one on a tie.  The
    result is [(s, k, n)], with [n] one more when [s] was rounded up to a
    power of ten. *)
Fixpoint shortest (fuel : nat) (k n z : Z) : Z * Z * Z :=
  match fuel with
  | O => (z, n, n)
  | S fuel' =>
      let p := 10 ^ (n - k) in
      let s0 := z / p in
      let s1 := s0 + 1 in
      let ok0 := match to_double (s0 * p) with Int z' => z' =? z | _ => false end in
      let ok1 := match to_double (s1 * p) with Int z' => z' =? z | _ => false end in
      let up := if s1 =? 10 ^ k then (10 ^ (k - 1), k, n + 1) else (s1, k, n) in
      if ok0 && ok1 then
        let d0 := z - s0 * p in
        let d1 := s1 * p - z in
        if d0 <? d1 then (s0, k, n)
        else if d1 <? d0 then up
        else if Z.even s0 then (s0, k, n) else up
      else if ok0 then (s0, k, n)
      else if ok1 then up
      else if k <? n then shortest fuel' (k + 1) n z
      else (z, n, n)
  end.

Fixpoint zeros (n : nat) : string :=
  match n with
  | O => ""
  | S n' => String "0" (zeros n')
  end.

(** An integral double below 2^53 prints all its digits; a larger one
    prints its shortest digits, followed by zeros up to 21 digits and in
    exponent notation beyond. *)
Definition positive_toString (z : Z) : string :=
  if z <? 9007199254740992 then pretty z
  else
    let n := Z.of_nat (String.length (pretty z)) in
    let '(s, k, n) := shortest 17 1 n z in
    let digits := pretty s in
    if n <=? 21 then digits +:+ zeros (Z.to_nat (n - k))
    else
      match digits with
      | EmptyString => ""
      | String d EmptyString => String d ("e+" +:+ pretty (n - 1))
      | String d rest => String d (String "." rest) +:+ "e+" +:+ pretty (n - 1)
      end.

(** [Number.prototype.toString] on the values of [number]. *)
Definition Number_toString (x : number) : string :=
  match x with
  | Int z => if z <? 0 then String "-" (positive_toString (- z)) else positive_toString z
  | NaN => "NaN"
  | Infinity => "Infinity"
  | NegInfinity => "-Infinity"
  end.

(** ** Strings *)

(** [p] is a prefix of [s]. *)
Fixpoint startsWith (p s : string) : bool :=
  match p, s with
  | EmptyString, _ => true
  | String a p', String b s' => if Ascii.eqb a b then startsWith p' s' else false
  | String _ _, EmptyString => false
  end.

(** [String.prototype.includes]: [p] occurs somewhere in [s]. *)
Fixpoint includes (s p : string) : bool :=
  startsWith p s ||
  match s with
  | EmptyString => false
  | String _ s' => includes s' p
  end.

(** Drops the first [n] characters. *)
Fixpoint drop_chars (n : nat) (s : string) : string :=
  match n, s with
  | O, _ => s
  | S n', String _ s' => drop_chars n' s'
  | S _, EmptyString => EmptyString
  end.

(** [String.prototype.replace] with a string pattern: only the first
    occurrence of [pat], scanning from the left, is replaced. *)
Fixpoint replace (s pat by_ : string) : string :=
  if startsWith pat s then by_ +:+ drop_chars (String.length pat) s
  else match s with
       | EmptyString => EmptyString
       | String a s' => String a (replace s' pat by_)
       end.

(** ** [parseInt] with no radix argument *)

Definition code (a : ascii) : Z := Z.of_N (Ascii.N_of_ascii a).

(** ASCII white space and line terminators skipped by [parseInt]. *)
Definition is_white_space (a : ascii) : bool :=
  let n := code a in
  ((9 <=? n) && (n <=? 13)) || (n =? 32).

Fixpoint trimStart (s : string) : string :=
  match s with
  | EmptyString => EmptyString
  | String a s' => if is_white_space a then trimStart s' else s
  end.

(** The value of a character as a digit of the given radix, if it is one. *)
Definition digit_value (radix : Z) (a : ascii) : option Z :=
  let n := code a in
  let v := if (48 <=? n) && (n <=? 57) then Some (n - 48)
           else if (97 <=? n) && (n <=? 122) then Some (n - 87)
           else if (65 <=? n) && (n <=? 90) then Some (n - 55)
           else None in
  match v with
  | Some d => if d <? radix then Some d else None
  | None => None
  end.

(** Reads the longest prefix of [s] made of radix digits; [acc] is the value
    read so far, [None] while no digit has been read. *)
Fixpoint read_digits (radix : Z) (s : string) (acc : option Z) : option Z :=
  match s with
  | EmptyString => acc
  | String a s' =>
      match digit_value radix a with
      | Some d => read_digits radix s' (Some (default 0 acc * radix + d))
      | None => acc
      end
  end.

(** The digits read give a mathematical integer; the result is the double
    nearest to it.  (Past 20 significant digits an engine may replace the
    further digits by zeros before rounding.) *)
Definition parseInt (input : string) : number :=
  let s := trimStart input in
  let '(sign, s) :=
    match s with
    | String "-" r => (-1, r)
    | String "+" r => (1, r)
    | _ => (1, s)
    end in
  let '(radix, s) :=
    match s with
    | String "0" (String "x" r) => (16, r)
    | String "0" (String "X" r) => (16, r)
    | _ => (10, s)
    end in
  match read_digits radix s None with
  | None => NaN
  | Some m => to_double (sign * m)
  end.

(** ** The tag helpers of [DamageEmitterComponent] *)

(** [xs[0].replace(pat, by)]: reading index 0 of an empty array gives
    [undefined], and calling a method on [undefined] throws a [TypeError]
    (the wording of its message is the engine's and plays no role). *)
Definition first_replace (xs : list string) (pat by_ : string)
  : completion (option string) :=
  match xs with
  | [] => Throw (TypeError "Cannot read properties of undefined (reading 'replace')")
  | x :: _ => Normal (Some (replace x pat by_))
  end.

(** [getParamValue]: declared to return [string | undefined], hence the
    option in the normal completion. *)
Definition getParamValue (paramTag : string) (tags : list string)
  : completion (option string) :=
  first_replace (List.filter (fun str => includes str paramTag) tags)
                (paramTag +:+ ":") "".

(** [hasParam]: [Array.prototype.includes], equality of whole tags. *)
Definition hasParam (paramTag : string) (tags : list string) : bool :=
  bool_decide (paramTag ∈ tags).

(** The nullish coalescing operator [??]. *)
Definition nullish {A : Type} (v : option A) (d : A) : A :=
  match v with
  | Some a => a
  | None => d
  end.

(** ** Host objects

    The host engine owns blocks, entities and the persisted block states.
    Only what the handlers touch is represented. *)

Definition Entity := nat.

Record Vector3 := { x : Q; y : Q; z : Q }.

(** The options passed to [Dimension.getEntities]. *)
Record EntityQueryOptions := { q_location : Vector3; q_volume : Vector3 }.

(** A dimension answers entity queries; the answer is the host's, taken at
    the time the callback is delivered. *)
Record Dimension := { getEntities : EntityQueryOptions → list Entity }.

(** A block handle as carried by an event: integer coordinates, its
    dimension, and the tags of its block type. *)
Record Block := {
  location : Z * Z * Z;
  dimension : Dimension;
  getTags : list string
}.

(** The events of the three callbacks carry the block they are about. *)
Record BlockComponentEvent := { block : Block }.

(** [BlockPermutation.withState] returns a new permutation. *)
Definition withState (name : string) (value : bool) (p : gmap string bool)
  : gmap string bool := <[name := value]> p.

(** The mutable part of the world: the permutation persisted for each block,
    and the [applyDamage] calls received by entities, oldest first. *)
Record World := {
  permutations : gmap (Z * Z * Z) (gmap string bool);
  applied : list (Entity * number)
}.

(** ** The component instance *)

Record DamageOnStepComponent := {
  identifier : option string;
  triggered : bool;
  damage : number;
  continuous : bool;
  init : bool
}.

(** ** Handlers as state-and-exception computations *)

Definition M (A : Type) : Type :=
  DamageOnStepComponent * World → completion A * (DamageOnStepComponent * World).

#[export] Instance M_ret : MRet M := λ A a s, (Normal a, s).

#[export] Instance M_bind : MBind M := λ A B f m s,
  match m s with
  | (Normal a, s') => f a s'
  | (Throw e, s') => (Throw e, s')
  end.

Definition this : M DamageOnStepComponent := λ s, (Normal s.1, s).

Definition lift {A} (c : completion A) : M A := λ s, (c, s).

(** Assignments to the fields of the instance. *)
Definition with_triggered (c : DamageOnStepComponent) (v : bool) :=
  {| identifier := identifier c; triggered := v; damage := damage c;
     continuous := continuous c; init := init c |}.

Definition with_damage (c : DamageOnStepComponent) (v : number) :=
  {| identifier := identifier c; triggered := triggered c; damage := v;
     continuous := continuous c; init := init c |}.

Definition with_continuous (c : DamageOnStepComponent) (v : bool) :=
  {| identifier := identifier c; triggered := triggered c; damage := damage c;
     continuous := v; init := init c |}.

Definition with_init (c : DamageOnStepComponent) (v : bool) :=
  {| identifier := identifier c; triggered := triggered c; damage := damage c;
     continuous := continuous c; init := v |}.

Definition set_triggered (v : bool) : M unit := λ '(c, w), (Normal tt, (with_triggered c v, w)).
Definition set_damage (v : number) : M unit := λ '(c, w), (Normal tt, (with_damage c v, w)).
Definition set_continuous (v : bool) : M unit := λ '(c, w), (Normal tt, (with_continuous c v, w)).
Definition set_init (v : bool) : M unit := λ '(c, w), (Normal tt, (with_init c v, w)).

(** [block.permutation]; a block never written to has the empty permutation. *)
Definition permutation_of (w : World) (b : Block) : gmap string bool :=
  default ∅ (permutations w !! location b).

Definition permutation (b : Block) : M (gmap string bool) := λ s,
  (Normal (permutation_of s.2 b), s).

(** The world after [block.setPermutation(p)]. *)
Definition persist (w : World) (b : Block) (p : gmap string bool) : World :=
  {| permutations := <[location b := p]> (permutations w); applied := applied w |}.

(** The world after the given [applyDamage] calls. *)
Definition hurt (w : World) (calls : list (Entity * number)) : World :=
  {| permutations := permutations w; applied := applied w ++ calls |}.

Definition setPermutation (b : Block) (p : gmap string bool) : M unit := λ '(c, w),
  (Normal tt, (c, persist w b p)).

Definition applyDamage (entity : Entity) (amount : number) : M unit := λ '(c, w),
  (Normal tt, (c, hurt w [(entity, amount)])).

(** [Array.prototype.forEach]. *)
Fixpoint forEach {A} (xs : list A) (f : A → M unit) : M unit :=
  match xs with
  | [] => mret tt
  | a :: xs' => f a ;; forEach xs' f
  end.

(** How a template literal prints the [identifier] field. *)
Definition identifier_text (c : DamageOnStepComponent) : string :=
  match identifier c with
  | Some s => s
  | None => "undefined"
  end.

Definition triggered_state (c : DamageOnStepComponent) : string :=
  identifier_text c +:+ "_triggered".

Record ParameterTags := { damage_tag : string; continuous_tag : string }.

Definition parameterTags (c : DamageOnStepComponent) : ParameterTags :=
  {| damage_tag := identifier_text c +:+ "_damage";
     continuous_tag := identifier_text c +:+ "_continuous" |}.

(** The query both [onStepOff] and [onTick] pass to [getEntities]. *)
Definition cell_query (b : Block) : EntityQueryOptions :=
  let '(bx, by_, bz) := location b in
  {| q_location := {| x := (inject_Z bx + (1 # 2))%Q;
                      y := inject_Z by_;
                      z := (inject_Z bz + (1 # 2))%Q |};
     q_volume := {| x := 1 # 2; y := 1; z := 1 # 2 |} |}.

(** The entities the host reports for the cell of a block. *)
Definition scan (b : Block) : list Entity := getEntities (dimension b) (cell_query b).

(** What [damage.toString()] is applied to: the tag's text, or the number
    kept in the instance. *)
Inductive damage_source :=
  | FromTag (text : string)
  | FromField (n : number).

Definition toString (d : damage_source) : string :=
  match d with
  | FromTag text => text
  | FromField n => Number_toString n
  end.

Definition onStepOn (event : BlockComponentEvent) : M unit :=
  let block := block event in
  PERMUTATION ← permutation block;
  set_triggered true;;
  c ← this;
  setPermutation block (withState (triggered_state c) (triggered c) PERMUTATION).

Definition onStepOff (event : BlockComponentEvent) : M unit :=
  let block := block event in
  PERMUTATION ← permutation block;
  let entities := scan block in
  let stillHasEntity := (0 <? length entities)%nat in
  forEach entities (λ entity, c ← this; applyDamage entity (damage c));;
  if negb stillHasEntity then
    set_triggered false;;
    c ← this;
    setPermutation block (withState (triggered_state c) (triggered c) PERMUTATION)
  else mret tt.

Definition onTick (event : BlockComponentEvent) : M unit :=
  c ← this;
  if negb (init c) then
    let block := block event in
    PERMUTATION ← permutation block;
    let TAGS := getTags block in
    (* the permutation built here is dropped: nothing is written *)
    let _ := withState (triggered_state c) false PERMUTATION in
    value ← lift (getParamValue (damage_tag (parameterTags c)) TAGS);
    let damage0 := nullish (FromTag <$> value) (FromField (damage c)) in
    let damage1 := parseInt (toString damage0) in
    set_damage (Math.max (Int 1) (Math.floor damage1));;
    c ← this;
    set_continuous (nullish (Some (hasParam (continuous_tag (parameterTags c)) TAGS))
                            (continuous c));;
    set_init true
  else if triggered c then
    let block := block event in
    let entities := scan block in
    if (length entities =? 0)%nat then
      set_triggered false;;
      c ← this;
      PERMUTATION ← permutation block;
      setPermutation block (withState (triggered_state c) (triggered c) PERMUTATION)
    else
      forEach entities (λ entity, c ← this; applyDamage entity (damage c))
  else mret tt.

(** ** Construction *)

(** What a caller can pass at run time for the [identifier] parameter. *)
Inductive argument :=
  | undefined
  | null
  | str (s : string).

(** [v == undefined] and [v == null]: both hold of [undefined] and [null]
    only. *)
Definition loosely_nullish (v : argument) : bool :=
  match v with
  | undefined | null => true
  | str _ => false
  end.

(** The instance after the field initialisers have run. *)
Definition initial_fields : DamageOnStepComponent :=
  {| identifier := None; triggered := false; damage := Int 1;
     continuous := false; init := false |}.

(** The body of [DamageEmitterComponent]'s constructor on the instance
    [self]; [class_name] is [this.constructor.name].  The [identifier] field
    holds a string or [undefined], so [this.identifier === null] is false. *)
Definition DamageEmitterComponent_constructor
    (class_name : string) (self : DamageOnStepComponent) (identifier_arg : argument)
  : completion DamageOnStepComponent :=
  if (bool_decide (identifier self = None) && loosely_nullish identifier_arg)
     || (false && loosely_nullish identifier_arg)
  then Throw (Error ("The identifier property must be defined by " +:+ class_name +:+ "."))
  else
    Normal {| identifier := match identifier_arg with
                            | str s => Some s
                            | _ => identifier self
                            end;
              triggered := triggered self;
              damage := Math.max (Int 1) (Math.floor (damage self));
              continuous := continuous self;
              init := init self |}.

(** [new C(identifier)] for a concrete emitter class [C] whose constructor
    forwards its argument to [super]. *)
Definition new_emitter (class_name : string) (identifier_arg : argument)
  : completion DamageOnStepComponent :=
  DamageEmitterComponent_constructor class_name initial_fields identifier_arg.

Definition new_DamageOnStepComponent : completion DamageOnStepComponent :=
  new_emitter "DamageOnStepComponent" (str "dm:damage_on_step").

Definition getIdentifier (c : DamageOnStepComponent) : completion string :=
  match identifier c with
  | None => Throw (Error "The identifier property must be defined by DamageOnStepComponent.")
  | Some s => Normal s
  end.

(** The exported array [DamageEmitters]. *)
Definition DamageEmitters : completion (list DamageOnStepComponent) :=
  match new_DamageOnStepComponent with
  | Normal c => Normal [c]
  | Throw e => Throw e
  end.

(** ** Registration and delivery of callbacks *)

(** The host's state: the instance registered under each component
    identifier, and the world. *)
Record Host := {
  registry : gmap string DamageOnStepComponent;
  world : World
}.

(** The [worldInitialize] subscriber of [main.ts]: each emitter of the array
    is registered under its own identifier. *)
Fixpoint registerAll (emitters : list DamageOnStepComponent)
    (reg : gmap string DamageOnStepComponent)
  : completion (gmap string DamageOnStepComponent) :=
  match emitters with
  | [] => Normal reg
  | emitter :: rest =>
      match getIdentifier emitter with
      | Normal name => registerAll rest (<[name := emitter]> reg)
      | Throw e => Throw e
      end
  end.

Definition worldInitialize (w : World) : completion Host :=
  match DamageEmitters with
  | Normal emitters =>
      match registerAll emitters ∅ with
      | Normal reg => Normal {| registry := reg; world := w |}
      | Throw e => Throw e
      end
  | Throw e => Throw e
  end.

Inductive Callback :=
  | StepOn (event : BlockComponentEvent)
  | StepOff (event : BlockComponentEvent)
  | Tick (event : BlockComponentEvent).

Definition handler (cb : Callback) : M unit :=
  match cb with
  | StepOn event => onStepOn event
  | StepOff event => onStepOff event
  | Tick event => onTick event
  end.

Definition target (cb : Callback) : Block :=
  match cb with
  | StepOn event | StepOff event | Tick event => block event
  end.

(** The host delivers a callback for a block that uses the component
    registered as [name]: the handler runs on the registered instance, whose
    fields keep whatever the handler wrote, also when it throws. *)
Definition deliver (name : string) (cb : Callback) (h : Host) : Host :=
  match registry h !! name with
  | None => h
  | Some c =>
      let '(_, (c', w')) := handler cb (c, world h) in
      {| registry := <[name := c']> (registry h); world := w' |}
  end.

(** The in-memory state a handler observes when a callback for block [b] of
    component [name] is handled next. *)
Definition observed (h : Host) (name : string) (b : Block)
  : option (bool * number * bool) :=
  (λ c, (triggered c, damage c, init c)) <$> registry h !! name.

(** The persisted [_triggered] state of a block. *)
Definition persisted_triggered (w : World) (c : DamageOnStepComponent) (b : Block)
  : option bool :=
  permutation_of w b !! triggered_state c.

(** Running the tick handler once for each block of a list, in order; a
    throw of one callback does not stop the host from delivering the next. *)
Fixpoint ticks (bs : list Block) (s : DamageOnStepComponent * World)
  : DamageOnStepComponent * World :=
  match bs with
  | [] => s
  | b :: bs' => ticks bs' (onTick {| block := b |} s).2
  end.

(** ** Decimal numerals, as a block definition writes a damage value *)

Inductive digit := D0 | D1 | D2 | D3 | D4 | D5 | D6 | D7 | D8 | D9.

Definition digit_char (d : digit) : ascii :=
  match d with
  | D0 => "0" | D1 => "1" | D2 => "2" | D3 => "3" | D4 => "4"
  | D5 => "5" | D6 => "6" | D7 => "7" | D8 => "8" | D9 => "9"
  end%char.

Definition digit_Z (d : digit) : Z :=
  match d with
  | D0 => 0 | D1 => 1 | D2 => 2 | D3 => 3 | D4 => 4
  | D5 => 5 | D6 => 6 | D7 => 7 | D8 => 8 | D9 => 9
  end.

Fixpoint digits_text (ds : list digit) : string :=
  match ds with
  | [] => ""
  | d :: ds' => String (digit_char d) (digits_text ds')
  end.

(** The integer written by [ds] after the digits that already gave [acc]. *)
Fixpoint digits_value (acc : Z) (ds : list digit) : Z :=
  match ds with
  | [] => acc
  | d :: ds' => digits_value (acc * 10 + digit_Z d) ds'
  end.

(** The value in [0, 1) written by the digits after the point. *)
Fixpoint fraction_value (ds : list digit) : Q :=
  match ds with
  | [] => 0
  | d :: ds' => (inject_Z (digit_Z d) + fraction_value ds') / 10
  end%Q.

(** A non-negative decimal numeral: at least one integer digit, then
    possibly a point and fraction digits. *)
Record numeral := {
  first_digit : digit;
  next_digits : list digit;
  fraction_digits : option (list digit)
}.

Definition numeral_text (n : numeral) : string :=
  digits_text (first_digit n :: next_digits n) +:+
  match fraction_digits n with
  | Some f => String "." (digits_text f)
  | None => ""
  end.

Definition numeral_value (n : numeral) : Q :=
  (inject_Z (digits_value 0 (first_digit n :: next_digits n))
   + fraction_value (default [] (fraction_digits n)))%Q.

(** Text at which reading decimal digits stops at once. *)
Definition stops (tail : string) : Prop :=
  match tail with
  | EmptyString => True
  | String a _ => digit_value 10 a = None
  end.

(** ** Concrete blocks and worlds used in examples *)

Definition empty_world : World := {| permutations := ∅; applied := [] |}.

(** A block at [loc] with the given tags, in a dimension whose cell scan
    finds [occupants]. *)
Definition block_at (loc : Z * Z * Z) (tags : list string) (occupants : list Entity) : Block :=
  {| location := loc;
     dimension := {| getEntities := λ _, occupants |};
     getTags := tags |}.

(** Whether the point [p] lies in the box that goes from the location of
    the query to its location plus its volume. *)
Definition in_box (q : EntityQueryOptions) (p : Vector3) : bool :=
  Qle_bool (x (q_location q)) (x p)
  && Qle_bool (x p) (x (q_location q) + x (q_volume q))
  && Qle_bool (y (q_location q)) (y p)
  && Qle_bool (y p) (y (q_location q) + y (q_volume q))
  && Qle_bool (z (q_location q)) (z p)
  && Qle_bool (z p) (z (q_location q) + z (q_volume q)).

(** A dimension in which entities stand at the given points and which
    answers a query with the entities standing in its box. *)
Definition standing (positions : list (Entity * Vector3)) : Dimension :=
  {| getEntities := λ q, (List.filter (λ ep, in_box q ep.2) positions).*1 |}.

(** The instance built by [new DamageOnStepComponent()]. *)
Definition emitter : DamageOnStepComponent :=
  {| identifier := Some "dm:damage_on_step"; triggered := false; damage := Int 1;
     continuous := false; init := false |}.

(** The host after [worldInitialize] on an untouched world. *)
Definition initial_host : Host :=
  {| registry := {[ "dm:damage_on_step" := emitter ]}; world := empty_world |}.

(** ** Sequences of callbacks *)

(** The callbacks of a list handled one after the other by the same
    instance; a throw of one callback does not stop the next. *)
Fixpoint run (cbs : list Callback) (s : DamageOnStepComponent * World)
  : DamageOnStepComponent * World :=
  match cbs with
  | [] => s
  | cb :: cbs' => run cbs' (handler cb s).2
  end.

(** What the clamp [Math.max(1, Math.floor(_))] guarantees of a damage
    value: it is not below 1 (it can be [NaN], and it can be infinite). *)
Definition clamped (n : number) : Prop :=
  match n with
  | Int z => 1 ≤ z
  | NaN => True
  | Infinity => True
  | NegInfinity => False
  end.

(** A tag list in which no tag includes the key. *)
Definition no_tag_includes (key : string) (tags : list string) : Prop :=
  Forall (λ t, includes t key = false) tags.

(** * Properties *)

(** ** Evaluation on small inputs *)

Example parseInt_examples :
  parseInt "2" = Int 2 ∧ parseInt "0" = Int 0 ∧ parseInt "2.7" = Int 2 ∧
  parseInt "-5" = Int (-5) ∧ parseInt "abc" = NaN ∧ parseInt "" = NaN ∧
  parseInt " 0x1F" = Int 31 ∧ parseInt "12px" = Int 12 ∧ parseInt "NaN" = NaN ∧
  parseInt ".5" = NaN.
Proof. repeat split; reflexivity. Qed.

(** Rounding to doubles, and how large doubles print. *)
Example double_examples :
  to_double 9007199254740993 = Int 9007199254740992 ∧
  to_double 9007199254740995 = Int 9007199254740996 ∧
  to_double (- 9007199254740995) = Int (- 9007199254740996) ∧
  to_double (2 ^ 1024 - 2 ^ 970 - 1) = Int ((2 ^ 53 - 1) * 2 ^ 971) ∧
  to_double (2 ^ 1024 - 2 ^ 970) = Infinity ∧
  to_double (- 10 ^ 400) = NegInfinity ∧
  parseInt "9007199254740993" = Int 9007199254740992 ∧
  Number_toString (Int (2 ^ 53)) = "9007199254740992" ∧
  Number_toString (Int (2 ^ 64)) = "18446744073709552000" ∧
  Number_toString (Int (10 ^ 21)) = "1e+21" ∧
  Number_toString (Int (2 ^ 70)) = "1.1805916207174113e+21" ∧
  Number_toString Infinity = "Infinity".
Proof. repeat split; vm_compute; reflexivity. Qed.

(** The query for the block at the origin: a box of extent 0.5 x 1 x 0.5
    anchored at (0.5, 0, 0.5). *)
Example cell_query_origin :
  cell_query (block_at (0, 0, 0) [] [])
  = {| q_location := {| x := 1 # 2; y := 0; z := 1 # 2 |};
       q_volume := {| x := 1 # 2; y := 1; z := 1 # 2 |} |}.
Proof. reflexivity. Qed.

Example getParamValue_examples :
  getParamValue "dm:damage_on_step_damage"
    ["dm:damage_on_step_continuous"; "dm:damage_on_step_damage:2"] = Normal (Some "2") ∧
  Number_toString (Int 12) = "12" ∧ Number_toString (Int (-3)) = "-3".
Proof. repeat split; reflexivity. Qed.

(** ** Strings and tags *)

Section Strings.

Lemma startsWith_app (p s : string) : startsWith p (p +:+ s) = true.
Proof.
  induction p as [|a p IH]; simpl; [done|].
  by rewrite Ascii.eqb_refl.
Qed.

Lemma drop_chars_app (p s : string) : drop_chars (String.length p) (p +:+ s) = s.
Proof. induction p as [|a p IH]; simpl; [by destruct s | done]. Qed.

Lemma replace_found (s pat by_ : string) :
  startsWith pat s = true →
  replace s pat by_ = by_ +:+ drop_chars (String.length pat) s.
Proof. intros H. destruct s; simpl; rewrite H; reflexivity. Qed.

Lemma replace_prefix (p s : string) : replace (p +:+ s) p "" = s.
Proof.
  rewrite replace_found by apply startsWith_app.
  simpl. apply drop_chars_app.
Qed.

Lemma includes_startsWith (s p : string) : startsWith p s = true → includes s p = true.
Proof. intros H. destruct s; simpl in *; rewrite H; reflexivity. Qed.

Lemma append_assoc (a b c : string) : (a +:+ b) +:+ c = a +:+ (b +:+ c).
Proof.
  induction a as [|ch a IH]; [reflexivity|].
  change (String ch ((a +:+ b) +:+ c) = String ch (a +:+ b +:+ c)).
  by rewrite IH.
Qed.

(** A tag written [key:value] includes its key, and stripping [key:] from
    it leaves the value. *)
Lemma tag_includes_key (key value : string) :
  includes (key +:+ ":" +:+ value) key = true.
Proof. apply includes_startsWith, startsWith_app. Qed.

Lemma tag_value (key value : string) :
  replace (key +:+ ":" +:+ value) (key +:+ ":") "" = value.
Proof. rewrite <- append_assoc. apply replace_prefix. Qed.

End Strings.

Section TagLookup.

Variable paramTag : string.

Lemma filter_no_match (tags : list string) :
  Forall (λ t, includes t paramTag = false) tags →
  List.filter (λ str, includes str paramTag) tags = [].
Proof.
  induction 1 as [|t tags Ht _ IH]; simpl; [done|].
  by rewrite Ht.
Qed.

(** With no matching tag the helper throws. *)
Lemma getParamValue_no_match (tags : list string) :
  Forall (λ t, includes t paramTag = false) tags →
  ∃ e, getParamValue paramTag tags = Throw e.
Proof.
  intros H. unfold getParamValue. rewrite (filter_no_match _ H). simpl. eauto.
Qed.

(** It is the first tag including the key that is read. *)
Lemma getParamValue_first_match (pre post : list string) (t : string) :
  Forall (λ t, includes t paramTag = false) pre →
  includes t paramTag = true →
  getParamValue paramTag (pre ++ t :: post)
  = Normal (Some (replace t (paramTag +:+ ":") "")).
Proof.
  intros Hpre Ht. unfold getParamValue.
  rewrite List.filter_app, (filter_no_match _ Hpre). simpl. by rewrite Ht.
Qed.

Lemma getParamValue_tag (pre post : list string) (value : string) :
  Forall (λ t, includes t paramTag = false) pre →
  getParamValue paramTag (pre ++ (paramTag +:+ ":" +:+ value) :: post)
  = Normal (Some value).
Proof.
  intros Hpre.
  rewrite getParamValue_first_match by (done || apply tag_includes_key).
  by rewrite tag_value.
Qed.

(** Whatever the tags, the helper never completes with [undefined]. *)
Lemma getParamValue_never_undefined (tags : list string) :
  getParamValue paramTag tags ≠ Normal None.
Proof.
  unfold getParamValue.
  by destruct (List.filter _ tags).
Qed.

End TagLookup.

(** ** [parseInt] on decimal numerals *)

Section Doubles.

(** Integers below 2^53 in absolute value are doubles. *)
Lemma to_double_exact (m : Z) : Z.abs m < 2 ^ 53 → to_double m = Int m.
Proof.
  intros H. unfold to_double.
  change (2 ^ 53) with 9007199254740992 in H.
  by rewrite (proj2 (Z.ltb_lt _ _) H).
Qed.

(** Rounding keeps the sign: what is not positive stays so, or becomes the
    negative infinity, and the clamp then gives 1. *)
Lemma clamp_to_double_nonpos (m : Z) :
  m ≤ 0 → Math.max (Int 1) (Math.floor (to_double m)) = Int 1.
Proof.
  intros Hm. unfold to_double.
  destruct (Z.abs m <? 9007199254740992) eqn:Hsmall.
  - simpl. f_equal. lia.
  - apply Z.ltb_ge in Hsmall.
    assert (m < 0) as Hneg by lia.
    rewrite (proj2 (Z.ltb_lt _ _) Hneg).
    set (e := Z.log2 (Z.abs m) - 52).
    set (q := Z.shiftr (Z.abs m) e).
    set (q' := if (_ || _) then q + 1 else q).
    destruct (2 ^ 1024 <=? Z.shiftl q' e); [reflexivity|].
    cbn [Math.floor Math.max]. f_equal.
    assert (0 ≤ q) as Hq by (apply Z.shiftr_nonneg; lia).
    assert (0 ≤ q') as Hq' by (subst q'; destruct (_ || _); lia).
    assert (0 ≤ Z.shiftl q' e) as Hv by (by apply Z.shiftl_nonneg).
    rewrite Z.sgn_neg by done. lia.
Qed.

End Doubles.

Section Numerals.

Lemma digit_value_digit (d : digit) : digit_value 10 (digit_char d) = Some (digit_Z d).
Proof. destruct d; reflexivity. Qed.

Lemma read_digits_stops (tail : string) (acc : option Z) :
  stops tail → read_digits 10 tail acc = acc.
Proof. destruct tail as [|a tail]; simpl; [done|]. by intros ->. Qed.

Lemma read_digits_text (ds : list digit) (tail : string) (acc : Z) :
  stops tail →
  read_digits 10 (digits_text ds +:+ tail) (Some acc) = Some (digits_value acc ds).
Proof.
  intros Htail. revert acc.
  induction ds as [|d ds IH]; intros acc.
  - by apply read_digits_stops.
  - change (digits_text (d :: ds) +:+ tail)
      with (String (digit_char d) (digits_text ds +:+ tail)).
    cbn [read_digits]. rewrite digit_value_digit. apply IH.
Qed.

Lemma fraction_tail_stops (fraction : option (list digit)) :
  stops match fraction with
        | Some f => String "." (digits_text f)
        | None => ""
        end.
Proof. by destruct fraction. Qed.

(** A numeral has no sign, no white space and no hexadecimal prefix: it
    is read in radix 10 from its first character. *)
Lemma parseInt_numeral_radix (n : numeral) :
  parseInt (numeral_text n)
  = match read_digits 10 (numeral_text n) None with
    | None => NaN
    | Some m => to_double (1 * m)
    end.
Proof.
  destruct n as [d next fraction].
  destruct fraction; destruct d; try reflexivity;
    destruct next as [|[] next]; reflexivity.
Qed.

(** [parseInt] reads the integer digits and ignores the fraction. *)
Lemma parseInt_numeral (n : numeral) :
  parseInt (numeral_text n) = to_double (digits_value 0 (first_digit n :: next_digits n)).
Proof.
  rewrite parseInt_numeral_radix.
  destruct n as [d next fraction]. unfold numeral_text.
  cbn [first_digit next_digits fraction_digits].
  change (digits_text (d :: next) +:+ ?t)
    with (String (digit_char d) (digits_text next +:+ t)).
  cbn [read_digits]. rewrite digit_value_digit.
  rewrite read_digits_text by apply fraction_tail_stops.
  cbn [digits_value default]. by rewrite Z.mul_1_l.
Qed.

Lemma digit_Z_bounds (d : digit) : 0 ≤ digit_Z d ≤ 9.
Proof. destruct d; simpl; lia. Qed.

Lemma digits_value_nonneg (ds : list digit) (acc : Z) :
  0 ≤ acc → 0 ≤ digits_value acc ds.
Proof.
  revert acc. induction ds as [|d ds IH]; intros acc Hacc; simpl; [done|].
  apply IH. pose proof (digit_Z_bounds d). lia.
Qed.

Lemma fraction_value_bounds (ds : list digit) :
  (0 <= fraction_value ds)%Q ∧ (fraction_value ds < 1)%Q.
Proof.
  induction ds as [|d ds [IH0 IH1]]; simpl.
  - split; lra.
  - pose proof (digit_Z_bounds d) as [Hd0 Hd9].
    rewrite Zle_Qle in Hd0, Hd9.
    change (inject_Z 0) with 0%Q in Hd0. change (inject_Z 9) with 9%Q in Hd9.
    unfold Qdiv. change (/ 10)%Q with (1 # 10)%Q. split; lra.
Qed.

Lemma Qfloor_add_fraction (i : Z) (f : Q) :
  (0 <= f)%Q → (f < 1)%Q → Qfloor (inject_Z i + f) = i.
Proof.
  intros H0 H1.
  pose proof (Qfloor_le (inject_Z i + f)) as Hle.
  pose proof (Qlt_floor (inject_Z i + f)) as Hlt.
  rewrite inject_Z_plus in Hlt.
  assert (inject_Z (Qfloor (inject_Z i + f)) < inject_Z (i + 1))%Q as A.
  { rewrite inject_Z_plus. change (inject_Z 1) with 1%Q in *. lra. }
  assert (inject_Z i < inject_Z (Qfloor (inject_Z i + f) + 1))%Q as B.
  { rewrite inject_Z_plus. change (inject_Z 1) with 1%Q in *. lra. }
  rewrite <- Zlt_Qlt in A, B. lia.
Qed.

(** The floor of a numeral's value is its integer part. *)
Lemma numeral_floor (n : numeral) :
  Qfloor (numeral_value n) = digits_value 0 (first_digit n :: next_digits n).
Proof.
  unfold numeral_value.
  destruct (fraction_value_bounds (default [] (fraction_digits n))).
  by apply Qfloor_add_fraction.
Qed.

Lemma numeral_value_nonneg (n : numeral) : (0 <= numeral_value n)%Q.
Proof.
  unfold numeral_value.
  destruct (fraction_value_bounds (default [] (fraction_digits n))) as [H0 _].
  pose proof (digits_value_nonneg (first_digit n :: next_digits n) 0 (Z.le_refl 0)) as Hi.
  rewrite Zle_Qle in Hi. change (inject_Z 0) with 0%Q in Hi. lra.
Qed.

Lemma numeral_floor_nonneg (n : numeral) : 0 ≤ Qfloor (numeral_value n).
Proof.
  rewrite numeral_floor.
  apply (digits_value_nonneg (first_digit n :: next_digits n) 0). lia.
Qed.

Lemma parseInt_numeral_floor (n : numeral) :
  parseInt (numeral_text n) = to_double (Qfloor (numeral_value n)).
Proof. by rewrite parseInt_numeral, numeral_floor. Qed.

End Numerals.

(** ** The handlers, case by case *)

Section Handlers.

Implicit Types (c : DamageOnStepComponent) (w : World) (event : BlockComponentEvent).

(** Every entity of the list receives one call, each with the whole
    [damage] of the instance; the instance is not changed. *)
Lemma forEach_applyDamage (entities : list Entity) c w :
  forEach entities (λ entity, c0 ← this; applyDamage entity (damage c0)) (c, w)
  = (Normal tt, (c, hurt w (map (λ entity, (entity, damage c)) entities))).
Proof.
  revert w. induction entities as [|e es IH]; intros w.
  - unfold hurt. simpl. rewrite app_nil_r. by destruct w.
  - cbn [forEach]. unfold mbind, M_bind at 1. cbn.
    rewrite IH. unfold hurt. cbn. by rewrite <- app_assoc.
Qed.

Lemma onStepOn_eq event c w :
  onStepOn event (c, w)
  = (Normal tt,
     (with_triggered c true,
      persist w (block event)
        (withState (triggered_state c) true (permutation_of w (block event))))).
Proof. reflexivity. Qed.

Lemma onStepOff_eq event c w :
  onStepOff event (c, w)
  = (Normal tt,
     match scan (block event) with
     | [] =>
         (with_triggered c false,
          persist w (block event)
            (withState (triggered_state c) false (permutation_of w (block event))))
     | _ :: _ =>
         (c, hurt w (map (λ entity, (entity, damage c)) (scan (block event))))
     end).
Proof.
  unfold onStepOff. unfold mbind at 1, M_bind at 1. cbn [permutation fst snd].
  unfold mbind at 1, M_bind at 1. rewrite forEach_applyDamage.
  destruct (scan (block event)) as [|e es]; [|reflexivity].
  cbn. unfold hurt, persist. cbn. by rewrite app_nil_r.
Qed.

(** A tick on an initialised, triggered instance. *)
Lemma onTick_triggered_eq event c w :
  init c = true → triggered c = true →
  onTick event (c, w)
  = (Normal tt,
     match scan (block event) with
     | [] =>
         (with_triggered c false,
          persist w (block event)
            (withState (triggered_state c) false (permutation_of w (block event))))
     | _ :: _ =>
         (c, hurt w (map (λ entity, (entity, damage c)) (scan (block event))))
     end).
Proof.
  intros Hinit Htrig. unfold onTick. unfold mbind at 1, M_bind at 1.
  cbn [this fst]. rewrite Hinit, Htrig. cbn [negb].
  destruct (scan (block event)) as [|e es] eqn:Hscan.
  - reflexivity.
  - cbn [length Nat.eqb]. apply forEach_applyDamage.
Qed.

(** A tick on an initialised instance that is not triggered does nothing. *)
Lemma onTick_idle_eq event c w :
  init c = true → triggered c = false →
  onTick event (c, w) = (Normal tt, (c, w)).
Proof.
  intros Hinit Htrig. unfold onTick. unfold mbind at 1, M_bind at 1.
  cbn [this fst]. by rewrite Hinit, Htrig.
Qed.

(** The first tick: what it does is decided by the tag lookup alone. *)
Lemma onTick_init_eq event c w :
  init c = false →
  onTick event (c, w)
  = match getParamValue (damage_tag (parameterTags c)) (getTags (block event)) with
    | Normal value =>
        (Normal tt,
         ({| identifier := identifier c;
             triggered := triggered c;
             damage := Math.max (Int 1) (Math.floor (parseInt
                         (toString (nullish (FromTag <$> value) (FromField (damage c))))));
             continuous := hasParam (continuous_tag (parameterTags c))
                                    (getTags (block event));
             init := true |}, w))
    | Throw e => (Throw e, (c, w))
    end.
Proof.
  intros Hinit. unfold onTick. unfold mbind at 1, M_bind at 1.
  cbn [this fst]. rewrite Hinit. cbn [negb].
  unfold mbind at 1, M_bind at 1. cbn [permutation].
  unfold mbind at 1, M_bind at 1. unfold lift at 1.
  destruct (getParamValue _ _) as [value|e]; reflexivity.
Qed.

End Handlers.

Lemma new_DamageOnStepComponent_eq : new_DamageOnStepComponent = Normal emitter.
Proof. reflexivity. Qed.

(** ** Persisted state *)

Section Persisted.

Implicit Types (c : DamageOnStepComponent) (w : World) (b : Block).

Lemma permutation_of_persist w b p : permutation_of (persist w b p) b = p.
Proof. unfold permutation_of, persist. cbn. by rewrite lookup_insert_eq. Qed.

Lemma persisted_triggered_persist w c b v p :
  persisted_triggered (persist w b (withState (triggered_state c) v p)) c b = Some v.
Proof.
  unfold persisted_triggered. rewrite permutation_of_persist.
  unfold withState. apply lookup_insert_eq.
Qed.

Lemma permutations_persist_ne w b p (l : Z * Z * Z) :
  location b ≠ l → permutations (persist w b p) !! l = permutations w !! l.
Proof. intros Hne. unfold persist. cbn. by rewrite lookup_insert_ne. Qed.

End Persisted.

(** ** Step-on, step-off and tick on a triggered emitter *)

(** C6.  A step-on callback sets the in-memory [triggered] flag to true and
    writes true into the block's persisted [_triggered] state before it
    returns, whatever the flag was before; it returns normally, changes no
    other field and applies no damage. *)
Theorem onStepOn_triggers_and_persists
    (event : BlockComponentEvent) (c : DamageOnStepComponent) (w : World) :
  ∃ c' w',
    onStepOn event (c, w) = (Normal tt, (c', w')) ∧
    triggered c' = true ∧
    persisted_triggered w' c' (block event) = Some true ∧
    c' = with_triggered c true ∧
    applied w' = applied w.
Proof.
  rewrite onStepOn_eq. eexists _, _. split; [reflexivity|].
  split; [reflexivity|]. split; [|done].
  apply (persisted_triggered_persist w c).
Qed.




(** Two occupants of a triggered cell: each receives the whole damage. *)
Example two_occupants_full_damage :
  let event := {| block := block_at (0, 0, 0) [] [7%nat; 8%nat] |} in
  let c := with_init (with_damage (with_triggered emitter true) (Int 3)) true in
  applied (onTick event (c, empty_world)).2.2 = [(7%nat, Int 3); (8%nat, Int 3)].
Proof. reflexivity. Qed.

(** C8.  A step-off callback asks the host for the entities in the box of
    the block (extent 0.5 x 1 x 0.5, corner at (x + 0.5, y, z + 0.5)) and
    applies the configured damage to every entity found.  Exactly when
    nothing is found it sets [triggered] to false and writes false into the
    block's persisted state; otherwise the instance and the persisted
    states are unchanged. *)
Theorem onStepOff_rescans
    (bx by_ bz : Z) (dim : Dimension) (tags : list string)
    (c : DamageOnStepComponent) (w : World) :
  let b := {| location := (bx, by_, bz); dimension := dim; getTags := tags |} in
  let found :=
    getEntities dim
      {| q_location := {| x := inject_Z bx + (1 # 2);
                          y := inject_Z by_;
                          z := inject_Z bz + (1 # 2) |};
         q_volume := {| x := 1 # 2; y := 1; z := 1 # 2 |} |} in
  ∃ c' w',
    onStepOff {| block := b |} (c, w) = (Normal tt, (c', w')) ∧
    applied w' = applied w ++ map (λ entity, (entity, damage c)) found ∧
    (found = [] →
       c' = with_triggered c false ∧ triggered c' = false ∧
       persisted_triggered w' c' b = Some false) ∧
    (found ≠ [] →
       c' = c ∧ permutations w' = permutations w).
Proof.
  intros b found. rewrite onStepOff_eq.
  change (scan (block {| block := b |})) with found.
  destruct found as [|e es].
  - eexists _, _. split; [reflexivity|]. split; [by rewrite app_nil_r|].
    split; [|done]. intros _. repeat split.
    apply (persisted_triggered_persist w c).
  - eexists _, _. split; [reflexivity|]. split; [reflexivity|].
    split; [done|]. by intros _.
Qed.

(** One entity steps off the block at (2, 5, -1) while entity 7 still stands
    in its box and entity 9 in the other half of its cell: 7 receives the
    damage, 9 does not, and the instance stays triggered. *)
Example step_off_with_remaining_occupant :
  let dim := standing [(9%nat, {| x := 9 # 4; y := 5; z := -3 # 4 |});
                       (7%nat, {| x := 5 # 2; y := 5; z := -1 # 2 |})] in
  let c := with_init (with_damage (with_triggered emitter true) (Int 3)) true in
  let b := {| location := (2, 5, -1); dimension := dim; getTags := [] |} in
  onStepOff {| block := b |} (c, empty_world)
  = (Normal tt, (c, {| permutations := ∅; applied := [(7%nat, Int 3)] |})).
Proof. reflexivity. Qed.

(** The last entity steps off: false in memory and false persisted. *)
Example step_off_empty_cell :
  let event := {| block := block_at (0, 0, 0) [] [] |} in
  let s := (onStepOn event (emitter, empty_world)).2 in
  let s' := (onStepOff event s).2 in
  triggered s.1 = true ∧ persisted_triggered s.2 s.1 (block event) = Some true ∧
  triggered s'.1 = false ∧ persisted_triggered s'.2 s'.1 (block event) = Some false ∧
  applied s'.2 = [].
Proof. repeat split; reflexivity. Qed.

(** ** Ticks on an idle emitter *)

Section Idle.

Implicit Types (c : DamageOnStepComponent) (w : World) (event : BlockComponentEvent).

(** A tick on an instance that is not triggered never touches the world,
    the identifier or the flag, initialised or not, throwing or not. *)
Lemma onTick_not_triggered event c w :
  triggered c = false →
  (onTick event (c, w)).2.2 = w ∧
  triggered (onTick event (c, w)).2.1 = false ∧
  identifier (onTick event (c, w)).2.1 = identifier c.
Proof.
  intros Htrig. destruct (init c) eqn:Hinit.
  - by rewrite onTick_idle_eq.
  - rewrite onTick_init_eq by done.
    by destruct (getParamValue _ _).
Qed.

Lemma onTick_idempotent_when_idle event c w :
  triggered c = false →
  (onTick event (onTick event (c, w)).2).2 = (onTick event (c, w)).2.
Proof.
  intros Htrig. destruct (init c) eqn:Hinit.
  - rewrite (onTick_idle_eq event c w) by done. cbn [snd].
    by rewrite onTick_idle_eq.
  - rewrite (onTick_init_eq event c w) by done.
    destruct (getParamValue _ _) as [value|e] eqn:Hget; cbn [snd].
    + by rewrite onTick_idle_eq.
    + rewrite (onTick_init_eq event c w) by done. by rewrite Hget.
Qed.

Lemma ticks_not_triggered (bs : list Block) c w :
  triggered c = false →
  (ticks bs (c, w)).2 = w ∧
  triggered (ticks bs (c, w)).1 = false ∧
  identifier (ticks bs (c, w)).1 = identifier c.
Proof.
  revert c. induction bs as [|b bs IH]; intros c Htrig; [done|].
  cbn [ticks].
  destruct (onTick_not_triggered {| block := b |} c w Htrig) as (Hw & Ht & Hid).
  destruct (onTick {| block := b |} (c, w)) as [r [c1 w1]]. cbn in *. subst w1.
  destruct (IH c1 Ht) as (? & ? & ?). repeat split; congruence.
Qed.

End Idle.

(** C10.  Starting from an instance whose [triggered] flag is false, any
    sequence of tick callbacks (for the block or for any blocks, whatever
    their cells hold, hence also while they are empty) leaves the flag false
    in memory, writes no persisted state, and invokes no damage application:
    the world after the ticks is the world before them.  Moreover a second
    tick changes nothing that the first did not: the handler is idempotent
    on such a state. *)
Theorem ticks_idle_idempotent
    (bs : list Block) (b : Block) (c : DamageOnStepComponent) (w : World) :
  triggered c = false →
  let s' := ticks bs (c, w) in
  triggered s'.1 = false ∧
  s'.2 = w ∧
  applied s'.2 = applied w ∧
  persisted_triggered s'.2 s'.1 b = persisted_triggered w c b ∧
  (onTick {| block := b |} (onTick {| block := b |} (c, w)).2).2
  = (onTick {| block := b |} (c, w)).2.
Proof.
  intros Htrig s'. subst s'.
  destruct (ticks_not_triggered bs c w Htrig) as (Hw & Ht & Hid).
  split; [done|]. split; [done|]. split; [by rewrite Hw|].
  split; [|by apply onTick_idempotent_when_idle].
  unfold persisted_triggered, triggered_state, identifier_text.
  by rewrite Hw, Hid.
Qed.

Lemma ticks_idle_idempotent_witness :
  let b := block_at (0, 0, 0) ["dm:damage_on_step_damage:2"] [] in
  let s' := ticks [b; b; b] (emitter, empty_world) in
  triggered s'.1 = false ∧
  s'.2 = empty_world ∧
  applied s'.2 = applied empty_world ∧
  persisted_triggered s'.2 s'.1 b = persisted_triggered empty_world emitter b ∧
  (onTick {| block := b |} (onTick {| block := b |} (emitter, empty_world)).2).2
  = (onTick {| block := b |} (emitter, empty_world)).2.
Proof.
  intros b.
  apply (ticks_idle_idempotent [b; b; b] b emitter empty_world).
  reflexivity.
Defined.

(** ** The damage in effect after initialisation *)

(** Non-negative numbers that are not written as digits, point, digits, and
    an integer past 2^53: a tag value of [.5] gives [NaN] where
    max(1, floor(0.5)) is 1, a tag value of [1e3] gives 1 where
    max(1, floor(1000)) is 1000, and 9007199254740993 gives
    9007199254740992. *)
Lemma damage_of_numbers_parseInt_misreads :
  let tick tags := damage (onTick {| block := block_at (0, 0, 0) tags [] |}
                             (emitter, empty_world)).2.1 in
  tick ["dm:damage_on_step_damage:.5"] = NaN ∧
  NaN ≠ Int (Z.max 1 (Qfloor (1 # 2))) ∧
  tick ["dm:damage_on_step_damage:1e3"] = Int 1 ∧
  Int 1 ≠ Int (Z.max 1 (Qfloor 1000)) ∧
  tick ["dm:damage_on_step_damage:9007199254740993"] = Int 9007199254740992 ∧
  Int 9007199254740992 ≠ Int (Z.max 1 (Qfloor 9007199254740993)).
Proof. repeat split; (reflexivity || discriminate). Qed.

(** C5, amended.  When the first tick finds the damage tag written [key:n]
    with [n] a non-negative decimal numeral (integer digits, possibly
    followed by a point and fraction digits), the damage in effect
    afterwards is max(1, floor(n)) as a double, that is with floor(n)
    rounded to the nearest double; below 2^53 nothing is rounded and the
    damage is exactly max(1, floor(n)). *)
Theorem damage_after_init_is_clamped_floor
    (event : BlockComponentEvent) (c : DamageOnStepComponent) (w : World)
    (pre post : list string) (n : numeral) :
  init c = false →
  Forall (λ t, includes t (damage_tag (parameterTags c)) = false) pre →
  getTags (block event)
  = pre ++ (damage_tag (parameterTags c) +:+ ":" +:+ numeral_text n) :: post →
  (onTick event (c, w)).1 = Normal tt ∧
  init (onTick event (c, w)).2.1 = true ∧
  damage (onTick event (c, w)).2.1
  = Math.max (Int 1) (to_double (Qfloor (numeral_value n))) ∧
  (Qfloor (numeral_value n) < 2 ^ 53 →
   damage (onTick event (c, w)).2.1 = Int (Z.max 1 (Qfloor (numeral_value n)))).
Proof.
  intros Hinit Hpre Htags.
  rewrite onTick_init_eq by done.
  rewrite Htags, getParamValue_tag by done.
  cbn [fst snd init damage fmap option_fmap option_map nullish toString].
  rewrite parseInt_numeral_floor.
  split; [done|]. split; [done|]. split.
  - by destruct (to_double _).
  - intros Hsmall. rewrite to_double_exact; [done|].
    pose proof (numeral_floor_nonneg n). lia.
Qed.

(** A damage tag of 0 resolves to a damage of 1. *)
Lemma damage_after_init_is_clamped_floor_witness :
  let n := {| first_digit := D0; next_digits := []; fraction_digits := None |} in
  let event := {| block := block_at (0, 0, 0)
                    ["dm:damage_on_step_continuous"; "dm:damage_on_step_damage:0"] [] |} in
  (onTick event (emitter, empty_world)).1 = Normal tt ∧
  init (onTick event (emitter, empty_world)).2.1 = true ∧
  damage (onTick event (emitter, empty_world)).2.1
  = Math.max (Int 1) (to_double (Qfloor (numeral_value n))) ∧
  (Qfloor (numeral_value n) < 2 ^ 53 →
   damage (onTick event (emitter, empty_world)).2.1
   = Int (Z.max 1 (Qfloor (numeral_value n)))).
Proof.
  intros n event.
  apply (damage_after_init_is_clamped_floor event emitter empty_world
           ["dm:damage_on_step_continuous"] [] n).
  - reflexivity.
  - repeat constructor.
  - reflexivity.
Defined.

Example damage_tag_examples :
  let tick tags := damage (onTick {| block := block_at (0, 0, 0) tags [] |}
                             (emitter, empty_world)).2.1 in
  tick ["dm:damage_on_step_damage:0"] = Int 1 ∧
  tick ["dm:damage_on_step_damage:3"] = Int 3 ∧
  tick ["dm:damage_on_step_damage:2.75"] = Int 2 ∧
  tick ["dm:damage_on_step_damage:-4"] = Int 1 ∧
  tick ["dm:damage_on_step_damage:9007199254740995"] = Int 9007199254740996 ∧
  tick ["dm:damage_on_step_damage:-9007199254740995"] = Int 1.
Proof. repeat split; reflexivity. Qed.

(** A damage written with 401 digits is past every finite double. *)
Example huge_damage_is_infinite :
  let n := {| first_digit := D1; next_digits := replicate 400 D0;
              fraction_digits := None |} in
  damage (onTick {| block := block_at (0, 0, 0)
                      ["dm:damage_on_step_damage:" +:+ numeral_text n] [] |}
            (emitter, empty_world)).2.1 = Infinity.
Proof. vm_compute. reflexivity. Qed.

(** ** Looking up a tag that is not there *)

(** C1.  With no tag matching the key, the lookup helper does not return
    [undefined]: it throws a [TypeError], on the empty tag list as on a list
    that holds other tags only.  With a matching tag it returns the suffix. *)
Theorem getParamValue_not_found_throws :
  getParamValue "dm:damage_on_step_damage" []
  = Throw (TypeError "Cannot read properties of undefined (reading 'replace')") ∧
  getParamValue "dm:damage_on_step_damage" ["dm:damage_on_step_continuous"]
  = Throw (TypeError "Cannot read properties of undefined (reading 'replace')") ∧
  getParamValue "dm:damage_on_step_damage" ["dm:damage_on_step_damage:2"]
  = Normal (Some "2").
Proof. repeat split; reflexivity. Qed.

(** C2.  The first tick on a block without the damage tag throws out of the
    handler and leaves the instance uninitialised, so that the next tick
    throws again; with a damage tag whose value is not a number, the damage
    becomes [NaN] instead of staying at its previous value. *)
Theorem onTick_absent_or_malformed_damage :
  let absent := {| block := block_at (0, 0, 0) ["dm:damage_on_step_continuous"] [] |} in
  let malformed := {| block := block_at (0, 0, 0) ["dm:damage_on_step_damage:abc"] [] |} in
  onTick absent (emitter, empty_world)
  = (Throw (TypeError "Cannot read properties of undefined (reading 'replace')"),
     (emitter, empty_world)) ∧
  (onTick absent (onTick absent (emitter, empty_world)).2).1
  = Throw (TypeError "Cannot read properties of undefined (reading 'replace')") ∧
  (onTick malformed (emitter, empty_world)).1 = Normal tt ∧
  damage (onTick malformed (emitter, empty_world)).2.1 = NaN.
Proof. repeat split; reflexivity. Qed.

(** The same, for every instance and every tag list without the key. *)
Lemma onTick_no_damage_tag_throws
    (event : BlockComponentEvent) (c : DamageOnStepComponent) (w : World) :
  init c = false →
  Forall (λ t, includes t (damage_tag (parameterTags c)) = false) (getTags (block event)) →
  ∃ e, onTick event (c, w) = (Throw e, (c, w)).
Proof.
  intros Hinit Hnone. rewrite onTick_init_eq by done.
  destruct (getParamValue_no_match _ _ Hnone) as [e ->]. eauto.
Qed.

(** ** Construction *)

(** Construction with the empty identifier does not raise the error: it
    succeeds, and the instance carries the empty identifier. *)
Lemma empty_identifier_is_accepted :
  new_emitter "DamageOnStepComponent" (str "")
  = Normal {| identifier := Some ""; triggered := false; damage := Int 1;
              continuous := false; init := false |} ∧
  new_emitter "DamageOnStepComponent" (str "")
  ≠ Throw (Error "The identifier property must be defined by DamageOnStepComponent.").
Proof. split; [reflexivity | discriminate]. Qed.

(** C9, amended.  Construction throws the configuration error exactly when
    the identifier passed is [undefined] or [null]; with any string, the
    empty one included, it succeeds, keeps that string as the identifier and
    leaves the damage at its clamped default of 1. *)
Theorem construction_fails_iff_no_identifier (class_name : string) (a : argument) :
  (new_emitter class_name a
   = Throw (Error ("The identifier property must be defined by " +:+ class_name +:+ "."))
   ↔ a = undefined ∨ a = null) ∧
  (∀ s : string,
     new_emitter class_name (str s)
     = Normal {| identifier := Some s; triggered := false; damage := Int 1;
                 continuous := false; init := false |}).
Proof.
  split; [|reflexivity].
  destruct a as [| |s]; cbn.
  - split; [by left | done].
  - split; [by right | done].
  - split; [done | by intros [|]].
Qed.

(** ** One instance for all blocks *)

Lemma worldInitialize_eq : worldInitialize empty_world = Normal initial_host.
Proof. reflexivity. Qed.

Section Delivery.

Implicit Types (c : DamageOnStepComponent) (w : World) (cb : Callback) (h : Host).

(** A handler writes the persisted state of the block of its event only. *)
Lemma handler_frame cb c w (l : Z * Z * Z) :
  location (target cb) ≠ l →
  permutations (handler cb (c, w)).2.2 !! l = permutations w !! l.
Proof.
  intros Hne. destruct cb as [event|event|event]; cbn [handler target] in *.
  - rewrite onStepOn_eq. by apply permutations_persist_ne.
  - rewrite onStepOff_eq. destruct (scan (block event)); cbn [snd]; [|done].
    by apply permutations_persist_ne.
  - destruct (init c) eqn:Hinit.
    + destruct (triggered c) eqn:Htrig.
      * rewrite onTick_triggered_eq by done.
        destruct (scan (block event)); cbn [snd]; [|done].
        by apply permutations_persist_ne.
      * by rewrite onTick_idle_eq.
    + rewrite onTick_init_eq by done. by destruct (getParamValue _ _).
Qed.

Lemma deliver_registered name cb h c :
  registry h !! name = Some c →
  deliver name cb h
  = {| registry := <[name := (handler cb (c, world h)).2.1]> (registry h);
       world := (handler cb (c, world h)).2.2 |}.
Proof.
  intros Hreg. unfold deliver. rewrite Hreg.
  by destruct (handler cb (c, world h)) as [r [c' w']].
Qed.

End Delivery.

(** The in-memory state is not kept per block: a callback for the block at
    the origin changes what the handlers observe for the block next to it. *)
Lemma state_is_shared_between_blocks :
  let a := block_at (0, 0, 0) ["dm:damage_on_step_damage:5"] [] in
  let b := block_at (1, 0, 0) ["dm:damage_on_step_damage:2"] [] in
  let name := "dm:damage_on_step" in
  location a ≠ location b ∧
  observed initial_host name b = Some (false, Int 1, false) ∧
  observed (deliver name (StepOn {| block := a |}) initial_host) name b
  = Some (true, Int 1, false) ∧
  observed (deliver name (Tick {| block := a |}) initial_host) name b
  = Some (false, Int 5, true) ∧
  observed (deliver name (StepOn {| block := a |}) initial_host) name b
  ≠ observed initial_host name b.
Proof. repeat split; (reflexivity || discriminate). Qed.

(** C3, amended.  The in-memory state belongs to the one instance
    registered under the component's identifier: after a callback for a
    block, what is observed for any other block of the component is what the
    handler left in that instance, the same as for the block itself.  What
    is per block is the persisted state: a callback for one block does not
    change the permutation persisted for another. *)
Theorem callbacks_share_instance_not_persisted_state
    (h : Host) (name : string) (cb : Callback) (b : Block) (c : DamageOnStepComponent) :
  registry h !! name = Some c →
  location (target cb) ≠ location b →
  let h' := deliver name cb h in
  let c' := (handler cb (c, world h)).2.1 in
  observed h' name b = Some (triggered c', damage c', init c') ∧
  observed h' name b = observed h' name (target cb) ∧
  permutations (world h') !! location b = permutations (world h) !! location b.
Proof.
  intros Hreg Hne h' c'. subst h' c'.
  rewrite (deliver_registered _ _ _ _ Hreg).
  split; [|split].
  - unfold observed. cbn [registry]. by rewrite lookup_insert_eq.
  - reflexivity.
  - cbn [world]. by apply handler_frame.
Qed.

Lemma callbacks_share_instance_not_persisted_state_witness :
  let a := block_at (0, 0, 0) ["dm:damage_on_step_damage:5"] [] in
  let b := block_at (1, 0, 0) ["dm:damage_on_step_damage:2"] [] in
  let name := "dm:damage_on_step" in
  let cb := StepOn {| block := a |} in
  let h' := deliver name cb initial_host in
  let c' := (handler cb (emitter, world initial_host)).2.1 in
  observed h' name b = Some (triggered c', damage c', init c') ∧
  observed h' name b = observed h' name (target cb) ∧
  permutations (world h') !! location b = permutations (world initial_host) !! location b.
Proof.
  intros a b name cb.
  apply (callbacks_share_instance_not_persisted_state initial_host name cb b emitter).
  - reflexivity.
  - discriminate.
Defined.

(** ** The first tick *)

(** A step-on delivered before the first tick: the first tick initialises
    the instance and leaves [triggered] true, in memory and persisted. *)
Lemma first_tick_after_step_on_stays_triggered :
  let event := {| block := block_at (0, 0, 0) ["dm:damage_on_step_damage:2"] [7%nat] |} in
  let s := (onStepOn event (emitter, empty_world)).2 in
  let s' := (onTick event s).2 in
  init s.1 = false ∧
  (onTick event s).1 = Normal tt ∧
  init s'.1 = true ∧
  triggered s'.1 = true ∧
  persisted_triggered s'.2 s'.1 (block event) = Some true.
Proof. repeat split; reflexivity. Qed.

(** C4, amended.  A tick delivered while the initialisation flag is unset,
    for a block whose tag list holds the damage tag, reads the damage from
    the first tag including the key and [continuous] from the presence of
    its tag, clamps the damage, and sets the flag; it leaves the [triggered]
    flag of the instance as it was, so that in memory the emitter is idle
    afterwards exactly when it was not triggered before.  Once the flag is
    set no tick changes the damage, [continuous] or the flag again, whatever
    the tags of the block it is delivered for. *)
Theorem first_tick_initialises
    (event : BlockComponentEvent) (c : DamageOnStepComponent) (w : World)
    (pre post : list string) (value : string) :
  init c = false →
  Forall (λ t, includes t (damage_tag (parameterTags c)) = false) pre →
  getTags (block event)
  = pre ++ (damage_tag (parameterTags c) +:+ ":" +:+ value) :: post →
  (onTick event (c, w)).1 = Normal tt ∧
  (onTick event (c, w)).2.1
  = {| identifier := identifier c;
       triggered := triggered c;
       damage := Math.max (Int 1) (Math.floor (parseInt value));
       continuous := hasParam (continuous_tag (parameterTags c)) (getTags (block event));
       init := true |} ∧
  (∀ (later : BlockComponentEvent) (c1 : DamageOnStepComponent) (w1 : World),
     init c1 = true →
     damage (onTick later (c1, w1)).2.1 = damage c1 ∧
     continuous (onTick later (c1, w1)).2.1 = continuous c1 ∧
     init (onTick later (c1, w1)).2.1 = true).
Proof.
  intros Hinit Hpre Htags. split; [|split].
  - rewrite onTick_init_eq by done.
    rewrite Htags at 1. by rewrite getParamValue_tag.
  - rewrite onTick_init_eq by done.
    rewrite Htags at 1. by rewrite getParamValue_tag.
  - intros later c1 w1 Hinit1.
    destruct (triggered c1) eqn:Htrig.
    + rewrite onTick_triggered_eq by done.
      by destruct (scan (block later)).
    + by rewrite onTick_idle_eq.
Qed.

Lemma first_tick_initialises_witness :
  let event := {| block := block_at (0, 0, 0)
                    ["dm:damage_on_step_continuous"; "dm:damage_on_step_damage:4"] [] |} in
  (onTick event (emitter, empty_world)).1 = Normal tt ∧
  (onTick event (emitter, empty_world)).2.1
  = {| identifier := identifier emitter;
       triggered := triggered emitter;
       damage := Math.max (Int 1) (Math.floor (parseInt "4"));
       continuous := hasParam (continuous_tag (parameterTags emitter))
                              (getTags (block event));
       init := true |} ∧
  (∀ (later : BlockComponentEvent) (c1 : DamageOnStepComponent) (w1 : World),
     init c1 = true →
     damage (onTick later (c1, w1)).2.1 = damage c1 ∧
     continuous (onTick later (c1, w1)).2.1 = continuous c1 ∧
     init (onTick later (c1, w1)).2.1 = true).
Proof.
  intros event.
  apply (first_tick_initialises event emitter empty_world
           ["dm:damage_on_step_continuous"] [] "4").
  - reflexivity.
  - repeat constructor.
  - reflexivity.
Defined.

Example first_tick_on_new_block :
  let event := {| block := block_at (0, 0, 0)
                    ["dm:damage_on_step_continuous"; "dm:damage_on_step_damage:4"] [] |} in
  onTick event (emitter, empty_world)
  = (Normal tt,
     ({| identifier := Some "dm:damage_on_step"; triggered := false; damage := Int 4;
         continuous := true; init := true |}, empty_world)).
Proof. reflexivity. Qed.

(** * Further properties of the tag helpers *)

Section TagHelpers.

Implicit Types (key t : string) (tags : list string).

Lemma filter_includes_nil key tags :
  List.filter (λ str, includes str key) tags = [] → no_tag_includes key tags.
Proof.
  induction tags as [|t tags IH]; simpl; [constructor|].
  destruct (includes t key) eqn:Ht; [done|].
  intros H. constructor; [done | by apply IH].
Qed.

Lemma includes_false_startsWith (s p : string) :
  includes s p = false → startsWith p s = false.
Proof. destruct s; simpl; by intros [? ?]%orb_false_iff. Qed.

(** Where the pattern does not occur, [replace] returns its subject. *)
Lemma replace_absent (s pat by_ : string) :
  includes s pat = false → replace s pat by_ = s.
Proof.
  induction s as [|a s IH]; intros H.
  - simpl in *. apply orb_false_iff in H as [H _]. by rewrite H.
  - pose proof (includes_false_startsWith _ _ H) as Hs.
    cbn [replace]. rewrite Hs. f_equal. apply IH.
    cbn [includes] in H. by apply orb_false_iff in H as [_ ?].
Qed.

Lemma startsWith_length (p s : string) :
  startsWith p s = true → (String.length p ≤ String.length s)%nat.
Proof.
  revert s. induction p as [|a p IH]; intros [|b s]; simpl; try (done || lia).
  destruct (Ascii.eqb a b); [|done]. intros H%IH. lia.
Qed.

Lemma includes_length (s p : string) :
  includes s p = true → (String.length p ≤ String.length s)%nat.
Proof.
  induction s as [|a s IH]; cbn [includes].
  - rewrite orb_false_r. apply startsWith_length.
  - intros [H|H]%orb_true_iff; [by apply startsWith_length|].
    apply IH in H. simpl. lia.
Qed.

Lemma length_append (a b : string) :
  String.length (a +:+ b) = (String.length a + String.length b)%nat.
Proof.
  induction a as [|ch a IH]; [reflexivity|].
  change (String ch a +:+ b) with (String ch (a +:+ b)). simpl. by rewrite IH.
Qed.

Lemma startsWith_refl (s : string) : startsWith s s = true.
Proof. induction s as [|a s IH]; simpl; [done|]. by rewrite Ascii.eqb_refl. Qed.

Lemma includes_refl (s : string) : includes s s = true.
Proof. apply includes_startsWith, startsWith_refl. Qed.

End TagHelpers.

Lemma getParamValue_some_tag_includes (key : string) (tags : list string) :
  Exists (λ t, includes t key = true) tags →
  ∃ v, getParamValue key tags = Normal (Some v).
Proof.
  intros Hex. unfold getParamValue.
  destruct (List.filter (λ str, includes str key) tags) as [|t ts] eqn:Hf.
  - apply filter_includes_nil in Hf.
    apply Exists_exists in Hex as (t & Hin & Ht).
    unfold no_tag_includes in Hf. rewrite Forall_forall in Hf.
    specialize (Hf t Hin). congruence.
  - simpl. eauto.
Qed.

(** X1.  The lookup helper completes normally exactly when some tag of the
    list includes the key as a substring; otherwise it throws. *)
Theorem getParamValue_normal_iff_some_tag_includes (key : string) (tags : list string) :
  (∃ v, getParamValue key tags = Normal (Some v)) ↔ Exists (λ t, includes t key = true) tags.
Proof.
  split.
  - unfold getParamValue. intros [v Hv].
    destruct (List.filter (λ str, includes str key) tags) as [|t ts] eqn:Hf; [done|].
    assert (In t (List.filter (λ str, includes str key) tags)) as Hin
      by (rewrite Hf; by left).
    apply List.filter_In in Hin as [Hin Ht].
    apply Exists_exists. exists t. split; [by apply list_elem_of_In | done].
  - apply getParamValue_some_tag_includes.
Qed.

(** X2.  The helper never completes with [undefined]: when it returns, it
    returns a string.  So the first tick never falls back to the damage the
    instance holds: its outcome is the same whatever that damage is. *)
Theorem damage_fallback_is_unreachable
    (event : BlockComponentEvent) (c : DamageOnStepComponent) (w : World) (d : number) :
  init c = false →
  (∀ key tags, getParamValue key tags ≠ Normal None) ∧
  (onTick event (with_damage c d, w)).1 = (onTick event (c, w)).1 ∧
  ((onTick event (c, w)).1 = Normal tt →
   (onTick event (with_damage c d, w)).2 = (onTick event (c, w)).2).
Proof.
  intros Hinit. split.
  - intros key tags. unfold getParamValue. by destruct (List.filter _ tags).
  - rewrite (onTick_init_eq event c w), (onTick_init_eq event (with_damage c d) w) by done.
    change (parameterTags (with_damage c d)) with (parameterTags c).
    unfold getParamValue.
    by destruct (List.filter _ (getTags (block event))).
Qed.

Lemma damage_fallback_is_unreachable_witness :
  let event := {| block := block_at (0, 0, 0) ["dm:damage_on_step_damage:3"] [] |} in
  (∀ key tags, getParamValue key tags ≠ Normal None) ∧
  (onTick event (with_damage emitter (Int 9), empty_world)).1
  = (onTick event (emitter, empty_world)).1 ∧
  ((onTick event (emitter, empty_world)).1 = Normal tt →
   (onTick event (with_damage emitter (Int 9), empty_world)).2
   = (onTick event (emitter, empty_world)).2).
Proof.
  intros event.
  apply (damage_fallback_is_unreachable event emitter empty_world (Int 9)).
  reflexivity.
Defined.

(** X3.  Only the first tag that includes the key is read: once a list holds
    such a tag, tags appended after it never change the result. *)
Theorem getParamValue_ignores_later_tags (key : string) (tags later : list string) :
  Exists (λ t, includes t key = true) tags →
  getParamValue key (tags ++ later) = getParamValue key tags.
Proof.
  intros Hex. unfold getParamValue. rewrite List.filter_app.
  destruct (List.filter (λ str, includes str key) tags) as [|t ts] eqn:Hf; [|done].
  apply filter_includes_nil in Hf.
  apply Exists_exists in Hex as (t & Hin & Ht).
  unfold no_tag_includes in Hf. rewrite Forall_forall in Hf.
  specialize (Hf t Hin). congruence.
Qed.

Lemma getParamValue_ignores_later_tags_witness :
  getParamValue "dm:damage_on_step_damage"
    (["dm:damage_on_step_damage:2"] ++ ["dm:damage_on_step_damage:7"])
  = getParamValue "dm:damage_on_step_damage" ["dm:damage_on_step_damage:2"].
Proof.
  apply (getParamValue_ignores_later_tags "dm:damage_on_step_damage"
           ["dm:damage_on_step_damage:2"] ["dm:damage_on_step_damage:7"]).
  apply Exists_cons_hd. reflexivity.
Defined.

(** X4.  When the first tag that includes the key does not hold the key
    followed by a colon, nothing is stripped: the helper returns that tag
    whole, not a value. *)
Theorem getParamValue_without_colon_returns_tag
    (key t : string) (pre post : list string) :
  no_tag_includes key pre →
  includes t key = true →
  includes t (key +:+ ":") = false →
  getParamValue key (pre ++ t :: post) = Normal (Some t).
Proof.
  intros Hpre Ht Hcolon.
  rewrite getParamValue_first_match by done.
  by rewrite replace_absent.
Qed.

Lemma getParamValue_without_colon_returns_tag_witness :
  getParamValue "dm:damage_on_step_damage"
    (["dm:damage_on_step_continuous"] ++ "dm:damage_on_step_damage_2" :: [])
  = Normal (Some "dm:damage_on_step_damage_2").
Proof.
  apply (getParamValue_without_colon_returns_tag "dm:damage_on_step_damage"
           "dm:damage_on_step_damage_2" ["dm:damage_on_step_continuous"] []).
  - repeat constructor.
  - reflexivity.
  - reflexivity.
Defined.

(** X5.  A key that [hasParam] finds as a whole tag is also found by the
    value lookup, which then returns normally. *)
Theorem hasParam_implies_getParamValue_returns (key : string) (tags : list string) :
  hasParam key tags = true →
  ∃ v, getParamValue key tags = Normal (Some v).
Proof.
  unfold hasParam. intros Hin%bool_decide_eq_true.
  apply getParamValue_some_tag_includes.
  apply Exists_exists. exists key. split; [done | apply includes_refl].
Qed.

Lemma hasParam_implies_getParamValue_returns_witness :
  ∃ v, getParamValue "dm:damage_on_step_continuous"
         ["dm:damage_on_step_damage:2"; "dm:damage_on_step_continuous"] = Normal (Some v).
Proof.
  apply (hasParam_implies_getParamValue_returns "dm:damage_on_step_continuous"
           ["dm:damage_on_step_damage:2"; "dm:damage_on_step_continuous"]).
  reflexivity.
Defined.

(** X6.  The two helpers match differently: a tag written [key:value] is
    found by the value lookup, which returns the value, but it does not
    count as the presence of [key] for [hasParam], which compares whole
    tags. *)
Theorem valued_tag_is_not_a_flag (key value : string) :
  getParamValue key [key +:+ ":" +:+ value] = Normal (Some value) ∧
  hasParam key [key +:+ ":" +:+ value] = false.
Proof.
  split.
  - apply (getParamValue_tag key [] [] value). constructor.
  - unfold hasParam. apply bool_decide_eq_false.
    intros Hin%list_elem_of_singleton.
    apply (f_equal String.length) in Hin.
    rewrite !length_append in Hin. simpl in Hin. lia.
Qed.

(** * Further properties of the first tick *)

(** X7.  After a first tick that returns normally, [continuous] is true
    exactly when the bare continuous tag is one of the block's tags,
    whatever the flag held before. *)
Theorem continuous_after_init_iff_tag_present
    (event : BlockComponentEvent) (c : DamageOnStepComponent) (w : World) :
  init c = false →
  (onTick event (c, w)).1 = Normal tt →
  (continuous (onTick event (c, w)).2.1 = true
   ↔ continuous_tag (parameterTags c) ∈ getTags (block event)).
Proof.
  intros Hinit. rewrite onTick_init_eq by done.
  destruct (getParamValue _ _) as [value|e]; [|done]. intros _.
  cbn [snd fst continuous]. unfold hasParam. apply bool_decide_eq_true.
Qed.

Lemma continuous_after_init_iff_tag_present_witness :
  let event := {| block := block_at (0, 0, 0)
                    ["dm:damage_on_step_damage:2"; "dm:damage_on_step_continuous:true"] [] |} in
  continuous (onTick event (with_continuous emitter true, empty_world)).2.1 = true
  ↔ continuous_tag (parameterTags (with_continuous emitter true)) ∈ getTags (block event).
Proof.
  intros event.
  apply (continuous_after_init_iff_tag_present event (with_continuous emitter true)
           empty_world); reflexivity.
Defined.

(** [parseInt] on a numeral preceded by a minus sign. *)
Lemma parseInt_minus_numeral (n : numeral) :
  parseInt (String "-" (numeral_text n))
  = to_double (- digits_value 0 (first_digit n :: next_digits n)).
Proof.
  transitivity (match read_digits 10 (numeral_text n) None with
                | None => NaN
                | Some m => to_double (-1 * m)
                end).
  { destruct n as [d next fraction].
    destruct fraction; destruct d; try reflexivity;
      destruct next as [|[] next]; reflexivity. }
  destruct n as [d next fraction]. unfold numeral_text.
  cbn [first_digit next_digits fraction_digits].
  change (digits_text (d :: next) +:+ ?t)
    with (String (digit_char d) (digits_text next +:+ t)).
  cbn [read_digits]. rewrite digit_value_digit.
  rewrite read_digits_text by apply fraction_tail_stops.
  cbn [digits_value default]. f_equal; lia.
Qed.

(** X8.  A damage tag whose value is a decimal numeral preceded by a minus
    sign resolves to a damage of 1. *)
Theorem negative_damage_resolves_to_one
    (event : BlockComponentEvent) (c : DamageOnStepComponent) (w : World)
    (pre post : list string) (n : numeral) :
  init c = false →
  no_tag_includes (damage_tag (parameterTags c)) pre →
  getTags (block event)
  = pre ++ (damage_tag (parameterTags c) +:+ ":" +:+ String "-" (numeral_text n)) :: post →
  (onTick event (c, w)).1 = Normal tt ∧
  damage (onTick event (c, w)).2.1 = Int 1.
Proof.
  intros Hinit Hpre Htags.
  rewrite onTick_init_eq by done.
  rewrite Htags, getParamValue_tag by done.
  cbn [fst snd damage fmap option_fmap option_map nullish toString].
  rewrite parseInt_minus_numeral. split; [done|].
  apply clamp_to_double_nonpos.
  pose proof (digits_value_nonneg (first_digit n :: next_digits n) 0 (Z.le_refl 0)). lia.
Qed.

Lemma negative_damage_resolves_to_one_witness :
  let n := {| first_digit := D4; next_digits := [D2]; fraction_digits := Some [D5] |} in
  let event := {| block := block_at (0, 0, 0) ["dm:damage_on_step_damage:-42.5"] [] |} in
  (onTick event (emitter, empty_world)).1 = Normal tt ∧
  damage (onTick event (emitter, empty_world)).2.1 = Int 1.
Proof.
  intros n event.
  apply (negative_damage_resolves_to_one event emitter empty_world [] [] n).
  - reflexivity.
  - constructor.
  - reflexivity.
Defined.

(** * Further properties of the handlers *)

Section HandlerFacts.

Implicit Types (c : DamageOnStepComponent) (w : World) (cb : Callback).

Lemma getParamValue_throw_iff (key : string) (tags : list string) :
  (∃ e, getParamValue key tags = Throw e) ↔ no_tag_includes key tags.
Proof.
  split; [|apply getParamValue_no_match].
  intros [e He]. apply filter_includes_nil.
  unfold getParamValue in He.
  by destruct (List.filter (λ str, includes str key) tags).
Qed.

(** The outcome of a handler, by cases: nothing changed; the instance was
    initialised; the flag was set and persisted; the scanned entities were
    damaged. *)
Lemma handler_outcome cb c w :
  (∃ r, handler cb (c, w) = (r, (c, w))) ∨
  (∃ value, init c = false ∧
     handler cb (c, w)
     = (Normal tt,
        ({| identifier := identifier c; triggered := triggered c;
            damage := Math.max (Int 1) (Math.floor (parseInt value));
            continuous := hasParam (continuous_tag (parameterTags c))
                                   (getTags (target cb));
            init := true |}, w))) ∨
  (∃ v, handler cb (c, w)
        = (Normal tt,
           (with_triggered c v,
            persist w (target cb)
              (withState (triggered_state c) v (permutation_of w (target cb)))))) ∨
  handler cb (c, w)
  = (Normal tt, (c, hurt w (map (λ entity, (entity, damage c)) (scan (target cb))))).
Proof.
  destruct cb as [event|event|event]; cbn [handler target].
  - rewrite onStepOn_eq. right. right. left. by exists true.
  - rewrite onStepOff_eq. destruct (scan (block event)) eqn:Hscan.
    + right. right. left. by exists false.
    + by do 3 right.
  - destruct (init c) eqn:Hinit.
    + destruct (triggered c) eqn:Htrig.
      * rewrite onTick_triggered_eq by done. destruct (scan (block event)) eqn:Hscan.
        -- right. right. left. by exists false.
        -- by do 3 right.
      * rewrite onTick_idle_eq by done. left. by eexists.
    + rewrite onTick_init_eq by done.
      destruct (getParamValue _ _) as [[value|]|e] eqn:Hget.
      * right. left. by exists value.
      * by apply getParamValue_never_undefined in Hget.
      * left. by eexists.
Qed.

Lemma with_triggered_same c : with_triggered c (triggered c) = c.
Proof. by destruct c. Qed.

End HandlerFacts.

(** X9.  The only callback that throws is a tick on an uninitialised
    instance for a block none of whose tags includes the damage key; a
    callback that throws leaves the instance and the world as they were. *)
Theorem handler_throws_iff (cb : Callback) (c : DamageOnStepComponent) (w : World) :
  ((∃ e, (handler cb (c, w)).1 = Throw e)
   ↔ ∃ event, cb = Tick event ∧ init c = false ∧
       no_tag_includes (damage_tag (parameterTags c)) (getTags (block event))) ∧
  (∀ e, (handler cb (c, w)).1 = Throw e → (handler cb (c, w)).2 = (c, w)).
Proof.
  split.
  - split.
    + intros [e He]. destruct cb as [event|event|event]; cbn [handler] in He.
      * by rewrite onStepOn_eq in He.
      * by rewrite onStepOff_eq in He.
      * exists event. destruct (init c) eqn:Hinit.
        -- destruct (triggered c) eqn:Htrig.
           ++ by rewrite onTick_triggered_eq in He.
           ++ by rewrite onTick_idle_eq in He.
        -- split; [done|]. split; [done|].
           rewrite onTick_init_eq in He by done.
           apply getParamValue_throw_iff.
           destruct (getParamValue _ _) as [value|e']; [done | eauto].
    + intros (event & -> & Hinit & Hnone). cbn [handler].
      destruct (onTick_no_damage_tag_throws event c w Hinit Hnone) as [e ->]. eauto.
  - intros e He.
    destruct (handler_outcome cb c w) as [[r ->]|[(v & _ & H)|[[v H]|H]]];
      [done | rewrite H in He; done ..].
Qed.

(** X10.  While the blocks that tick have no tag including the damage key,
    an uninitialised instance is never initialised: any number of such ticks
    leaves the instance and the world exactly as they were. *)
Theorem ticks_without_damage_tag_never_initialise
    (bs : list Block) (c : DamageOnStepComponent) (w : World) :
  init c = false →
  Forall (λ b, no_tag_includes (damage_tag (parameterTags c)) (getTags b)) bs →
  ticks bs (c, w) = (c, w).
Proof.
  intros Hinit. induction 1 as [|b bs Hb _ IH]; [done|].
  cbn [ticks].
  destruct (onTick_no_damage_tag_throws {| block := b |} c w Hinit Hb) as [e ->].
  exact IH.
Qed.

Lemma ticks_without_damage_tag_never_initialise_witness :
  let b := block_at (0, 0, 0) ["dm:damage_on_step_continuous"] [7%nat] in
  ticks [b; b; b] (with_triggered emitter true, empty_world)
  = (with_triggered emitter true, empty_world).
Proof.
  intros b.
  apply (ticks_without_damage_tag_never_initialise [b; b; b]
           (with_triggered emitter true) empty_world).
  - reflexivity.
  - repeat constructor.
Defined.

(** X11.  Once the instance is initialised, no sequence of callbacks
    changes its identifier, damage, [continuous] or initialisation flag:
    only [triggered] moves. *)
Theorem parameters_frozen_after_init
    (cbs : list Callback) (c : DamageOnStepComponent) (w : World) :
  init c = true →
  ∃ v, (run cbs (c, w)).1 = with_triggered c v.
Proof.
  revert c w. induction cbs as [|cb cbs IH]; intros c w Hinit.
  - exists (triggered c). by rewrite with_triggered_same.
  - cbn [run].
    assert (∃ v w', (handler cb (c, w)).2 = (with_triggered c v, w')) as (v & w' & ->).
    { destruct (handler_outcome cb c w) as [[r ->] | [(value & Hfalse & _) | [[v ->] | ->]]].
      - exists (triggered c), w. by rewrite with_triggered_same.
      - congruence.
      - by eexists _, _.
      - exists (triggered c). eexists. by rewrite with_triggered_same. }
    destruct (IH (with_triggered c v) w' Hinit) as [v' ->]. by exists v'.
Qed.

Lemma parameters_frozen_after_init_witness :
  let b := block_at (0, 0, 0) ["dm:damage_on_step_damage:9"] [7%nat] in
  let c := with_init (with_damage emitter (Int 3)) true in
  ∃ v, (run [StepOn {| block := b |}; Tick {| block := b |}; StepOff {| block := b |}]
          (c, empty_world)).1 = with_triggered c v.
Proof.
  intros b c.
  apply (parameters_frozen_after_init
           [StepOn {| block := b |}; Tick {| block := b |}; StepOff {| block := b |}]
           c empty_world).
  reflexivity.
Defined.

Section Clamp.

Implicit Types (c : DamageOnStepComponent) (w : World) (cb : Callback).

Lemma clamped_max (n : number) : clamped (Math.max (Int 1) (Math.floor n)).
Proof. destruct n; simpl; [lia | done..]. Qed.

Lemma handler_clamped cb c w :
  clamped (damage c) →
  clamped (damage (handler cb (c, w)).2.1) ∧
  ∃ calls, applied (handler cb (c, w)).2.2 = applied w ++ calls ∧
           Forall (λ call, clamped call.2) calls.
Proof.
  intros Hc.
  destruct (handler_outcome cb c w) as [[r ->] | [(value & _ & ->) | [[v ->] | ->]]];
    cbn [fst snd damage with_triggered applied persist hurt].
  - split; [done|]. exists []. by rewrite app_nil_r.
  - split; [apply clamped_max|]. exists []. by rewrite app_nil_r.
  - split; [done|]. exists []. by rewrite app_nil_r.
  - split; [done|]. eexists. split; [done|].
    apply Forall_forall. intros call (entity & -> & _)%list_elem_of_fmap. done.
Qed.

Lemma run_clamped (cbs : list Callback) c w :
  clamped (damage c) →
  clamped (damage (run cbs (c, w)).1) ∧
  ∃ calls, applied (run cbs (c, w)).2 = applied w ++ calls ∧
           Forall (λ call, clamped call.2) calls.
Proof.
  revert c w. induction cbs as [|cb cbs IH]; intros c w Hc.
  - split; [done|]. exists []. by rewrite app_nil_r.
  - cbn [run].
    destruct (handler_clamped cb c w Hc) as (Hc1 & calls1 & Happ1 & Hall1).
    destruct (handler cb (c, w)) as [r [c1 w1]]. cbn [fst snd] in *.
    destruct (IH c1 w1 Hc1) as (Hc2 & calls2 & Happ2 & Hall2).
    split; [done|]. exists (calls1 ++ calls2).
    split; [by rewrite Happ2, Happ1, app_assoc | by apply Forall_app].
Qed.

End Clamp.

(** X12.  From construction on, through any sequence of callbacks, the
    damage of the instance is never an integer below 1, and no [applyDamage]
    call made by the handlers carries such an amount; calls already received
    by entities are kept, new ones are appended. *)
Theorem damage_never_below_one
    (class_name : string) (a : argument) (c : DamageOnStepComponent)
    (cbs : list Callback) (w : World) :
  new_emitter class_name a = Normal c →
  clamped (damage (run cbs (c, w)).1) ∧
  ∃ calls, applied (run cbs (c, w)).2 = applied w ++ calls ∧
           Forall (λ call, clamped call.2) calls.
Proof.
  intros Hnew. apply run_clamped.
  destruct a as [| |s]; cbn in Hnew; [done..|].
  injection Hnew as <-. simpl. lia.
Qed.

Lemma damage_never_below_one_witness :
  let b := block_at (0, 0, 0) ["dm:damage_on_step_damage:-3"] [7%nat] in
  let cbs := [StepOn {| block := b |}; Tick {| block := b |}; Tick {| block := b |}] in
  clamped (damage (run cbs (emitter, empty_world)).1) ∧
  ∃ calls, applied (run cbs (emitter, empty_world)).2 = applied empty_world ++ calls ∧
           Forall (λ call, clamped call.2) calls.
Proof.
  intros b cbs.
  apply (damage_never_below_one "DamageOnStepComponent" (str "dm:damage_on_step")
           emitter cbs empty_world).
  reflexivity.
Defined.

(** X13.  A tick touches the world only when the instance is initialised
    and triggered: otherwise it scans nothing, damages no entity and writes
    no persisted state, and it leaves the [triggered] flag as it was; so
    the tick that initialises a triggered emitter does not damage the
    entity standing on the block. *)
Theorem tick_acts_only_when_initialised_and_triggered
    (event : BlockComponentEvent) (c : DamageOnStepComponent) (w : World) :
  init c = false ∨ triggered c = false →
  (onTick event (c, w)).2.2 = w ∧
  triggered (onTick event (c, w)).2.1 = triggered c.
Proof.
  intros H. destruct (init c) eqn:Hinit.
  - destruct H as [|Htrig]; [done|]. by rewrite onTick_idle_eq.
  - rewrite onTick_init_eq by done. by destruct (getParamValue _ _).
Qed.

Lemma tick_acts_only_when_initialised_and_triggered_witness :
  let event := {| block := block_at (0, 0, 0) ["dm:damage_on_step_damage:5"] [7%nat] |} in
  let s := (onStepOn event (emitter, empty_world)).2 in
  (onTick event s).2.2 = s.2 ∧
  triggered (onTick event s).2.1 = triggered s.1.
Proof.
  intros event.
  apply (tick_acts_only_when_initialised_and_triggered event
           (with_triggered emitter true)).
  by left.
Defined.

(** X14.  Whenever a callback changes the [triggered] flag, it has written
    the new value into the persisted state of the block of its event before
    it returns. *)
Theorem flag_change_is_persisted (cb : Callback) (c : DamageOnStepComponent) (w : World) :
  triggered (handler cb (c, w)).2.1 ≠ triggered c →
  persisted_triggered (handler cb (c, w)).2.2 (handler cb (c, w)).2.1 (target cb)
  = Some (triggered (handler cb (c, w)).2.1).
Proof.
  destruct (handler_outcome cb c w) as [[r ->] | [(value & _ & ->) | [[v ->] | ->]]];
    cbn [fst snd triggered]; try done.
  intros _. apply (persisted_triggered_persist w c).
Qed.

Lemma flag_change_is_persisted_witness :
  let cb := StepOn {| block := block_at (0, 0, 0) [] [7%nat] |} in
  persisted_triggered (handler cb (emitter, empty_world)).2.2
    (handler cb (emitter, empty_world)).2.1 (target cb)
  = Some (triggered (handler cb (emitter, empty_world)).2.1).
Proof.
  intros cb.
  apply (flag_change_is_persisted cb emitter empty_world).
  discriminate.
Defined.

(** X15.  Through any sequence of callbacks, the persisted state of a block
    that none of the callbacks is about stays as it was. *)
Theorem run_keeps_other_blocks
    (cbs : list Callback) (c : DamageOnStepComponent) (w : World) (l : Z * Z * Z) :
  Forall (λ cb, location (target cb) ≠ l) cbs →
  permutations (run cbs (c, w)).2 !! l = permutations w !! l.
Proof.
  intros Hall. revert c w.
  induction Hall as [|cb cbs Hcb _ IH]; intros c w; [done|].
  cbn [run].
  pose proof (handler_frame cb c w l Hcb) as Hframe.
  destruct (handler cb (c, w)) as [r [c1 w1]]. cbn [snd] in *.
  by rewrite IH.
Qed.

Lemma run_keeps_other_blocks_witness :
  let a := block_at (0, 0, 0) ["dm:damage_on_step_damage:5"] [] in
  let cbs := [StepOn {| block := a |}; Tick {| block := a |}; StepOff {| block := a |}] in
  permutations (run cbs (emitter, empty_world)).2 !! (1, 0, 0)
  = permutations empty_world !! (1, 0, 0).
Proof.
  intros a cbs.
  apply (run_keeps_other_blocks cbs emitter empty_world (1, 0, 0)).
  repeat constructor; discriminate.
Defined.

(** * How the callbacks compose *)

Section Composition.

Implicit Types (c : DamageOnStepComponent) (w : World) (b : Block).

Lemma persist_persist w b p q : persist (persist w b p) b q = persist w b q.
Proof. unfold persist. cbn. by rewrite insert_insert_eq. Qed.

Lemma withState_withState (name : string) (u v : bool) (p : gmap string bool) :
  withState name v (withState name u p) = withState name v p.
Proof. unfold withState. by rewrite insert_insert_eq. Qed.

End Composition.

(** X16.  Step-on is idempotent: a second step-on callback for the same
    block (a second entity entering) leaves the instance and the world as
    the first one left them. *)
Theorem onStepOn_idempotent
    (event : BlockComponentEvent) (c : DamageOnStepComponent) (w : World) :
  onStepOn event (onStepOn event (c, w)).2 = onStepOn event (c, w).
Proof.
  rewrite (onStepOn_eq event c w). cbn [snd]. rewrite onStepOn_eq.
  rewrite permutation_of_persist, persist_persist.
  change (triggered_state (with_triggered c true)) with (triggered_state c).
  by rewrite withState_withState.
Qed.

(** X17.  When the cell is empty, a step-off callback undoes the step-on
    before it: the two in sequence leave the instance and the world as the
    step-off alone would, with no damage applied. *)
Theorem onStepOff_undoes_onStepOn
    (event : BlockComponentEvent) (c : DamageOnStepComponent) (w : World) :
  scan (block event) = [] →
  onStepOff event (onStepOn event (c, w)).2 = onStepOff event (c, w) ∧
  applied (onStepOff event (onStepOn event (c, w)).2).2.2 = applied w ∧
  triggered (onStepOff event (onStepOn event (c, w)).2).2.1 = false.
Proof.
  intros Hscan.
  rewrite (onStepOn_eq event c w). cbn [snd]. rewrite !onStepOff_eq, Hscan.
  rewrite permutation_of_persist, persist_persist.
  change (triggered_state (with_triggered c true)) with (triggered_state c).
  by rewrite withState_withState.
Qed.

Lemma onStepOff_undoes_onStepOn_witness :
  let event := {| block := block_at (0, 0, 0) [] [] |} in
  onStepOff event (onStepOn event (emitter, empty_world)).2
  = onStepOff event (emitter, empty_world) ∧
  applied (onStepOff event (onStepOn event (emitter, empty_world)).2).2.2
  = applied empty_world ∧
  triggered (onStepOff event (onStepOn event (emitter, empty_world)).2).2.1 = false.
Proof.
  intros event.
  apply (onStepOff_undoes_onStepOn event emitter empty_world).
  reflexivity.
Defined.

(** X18.  The flag of the one instance is reset by a tick for any block
    whose cell is empty: after a step-on for block [a], a tick for another
    block [b] with an empty cell sets the flag to false and persists false
    for [b], while the persisted state of [a] still says true; from then on
    ticks for [a] do nothing, so its occupants are not damaged. *)
Theorem tick_for_another_block_resets_flag
    (a b : Block) (c : DamageOnStepComponent) (w : World) :
  init c = true →
  location a ≠ location b →
  scan b = [] →
  let s1 := (onStepOn {| block := a |} (c, w)).2 in
  let s2 := (onTick {| block := b |} s1).2 in
  triggered s2.1 = false ∧
  persisted_triggered s2.2 s2.1 b = Some false ∧
  persisted_triggered s2.2 s2.1 a = Some true ∧
  onTick {| block := a |} s2 = (Normal tt, s2).
Proof.
  intros Hinit Hne Hscan s1 s2. subst s1 s2.
  rewrite onStepOn_eq. cbn [snd].
  rewrite onTick_triggered_eq by done. cbn [block]. rewrite Hscan. cbn [snd fst].
  split; [done|].
  split; [exact (persisted_triggered_persist _
                   (with_triggered (with_triggered c true) false) b false _)|].
  split; [|by rewrite onTick_idle_eq].
  unfold persisted_triggered, permutation_of.
  rewrite permutations_persist_ne by done.
  change (permutations (persist w a ?p) !! location a)
    with (<[location a := p]> (permutations w) !! location a).
  rewrite lookup_insert_eq. cbn [default]. unfold withState.
  apply lookup_insert_eq.
Qed.

Lemma tick_for_another_block_resets_flag_witness :
  let a := block_at (0, 0, 0) [] [7%nat] in
  let b := block_at (1, 0, 0) [] [] in
  let c := with_init emitter true in
  let s1 := (onStepOn {| block := a |} (c, empty_world)).2 in
  let s2 := (onTick {| block := b |} s1).2 in
  triggered s2.1 = false ∧
  persisted_triggered s2.2 s2.1 b = Some false ∧
  persisted_triggered s2.2 s2.1 a = Some true ∧
  onTick {| block := a |} s2 = (Normal tt, s2).
Proof.
  intros a b c.
  apply (tick_for_another_block_resets_flag a b c empty_world).
  - reflexivity.
  - discriminate.
  - reflexivity.
Defined.

(** * Identification and registration *)

(** X19.  The guard of the constructor is what [getIdentifier] relies on:
    an instance that was constructed has the string it was given as its
    identifier, [getIdentifier] returns it without throwing, and its two
    parameter tags are that string followed by [_damage] and
    [_continuous]. *)
Theorem constructed_emitter_has_identifier
    (class_name : string) (a : argument) (c : DamageOnStepComponent) :
  new_emitter class_name a = Normal c →
  ∃ s, a = str s ∧
       getIdentifier c = Normal s ∧
       parameterTags c = {| damage_tag := s +:+ "_damage";
                            continuous_tag := s +:+ "_continuous" |}.
Proof.
  intros Hnew. destruct a as [| |s]; cbn in Hnew; [done..|].
  injection Hnew as <-. by exists s.
Qed.

Lemma constructed_emitter_has_identifier_witness :
  ∃ s, str "dm:damage_on_step" = str s ∧
       getIdentifier emitter = Normal s ∧
       parameterTags emitter = {| damage_tag := s +:+ "_damage";
                                  continuous_tag := s +:+ "_continuous" |}.
Proof.
  apply (constructed_emitter_has_identifier "DamageOnStepComponent"
           (str "dm:damage_on_step") emitter).
  reflexivity.
Defined.

(** * Damage over several callbacks *)

Section Repetition.

Implicit Types (c : DamageOnStepComponent) (w : World) (b : Block).

Lemma hurt_hurt w (calls calls' : list (Entity * number)) :
  hurt (hurt w calls) calls' = hurt w (calls ++ calls').
Proof. unfold hurt. cbn. by rewrite app_assoc. Qed.

Lemma hurt_nil w : hurt w [] = w.
Proof. unfold hurt. rewrite app_nil_r. by destruct w. Qed.

End Repetition.

(** X20.  While the cell of a block stays occupied, every tick on an
    initialised, triggered instance deals the whole damage to every
    occupant again: [n] ticks append [n] rounds of calls, and leave the
    instance and the persisted states as they were. *)
Theorem occupied_ticks_damage_every_tick
    (n : nat) (b : Block) (c : DamageOnStepComponent) (w : World) :
  init c = true → triggered c = true → scan b ≠ [] →
  ticks (replicate n b) (c, w)
  = (c, hurt w (mjoin (replicate n (map (λ entity, (entity, damage c)) (scan b))))).
Proof.
  intros Hinit Htrig Hscan. revert w.
  induction n as [|n IH]; intros w.
  - cbn. by rewrite hurt_nil.
  - cbn [replicate ticks].
    rewrite onTick_triggered_eq by done. cbn [block].
    destruct (scan b) as [|e es] eqn:Hb; [done|]. cbn [snd].
    rewrite IH, hurt_hurt. reflexivity.
Qed.

Lemma occupied_ticks_damage_every_tick_witness :
  let b := block_at (0, 0, 0) [] [7%nat; 8%nat] in
  let c := with_init (with_damage (with_triggered emitter true) (Int 3)) true in
  ticks (replicate 2 b) (c, empty_world)
  = (c, hurt empty_world
          (mjoin (replicate 2 (map (λ entity, (entity, damage c)) (scan b))))).
Proof.
  intros b c.
  apply (occupied_ticks_damage_every_tick 2 b c empty_world).
  - reflexivity.
  - reflexivity.
  - discriminate.
Defined.

Section Continuous.

Implicit Types (c : DamageOnStepComponent) (w : World) (cb : Callback).

Lemma handler_with_continuous cb c w (v : bool) :
  ∃ v', handler cb (with_continuous c v, w)
        = ((handler cb (c, w)).1,
           (with_continuous (handler cb (c, w)).2.1 v', (handler cb (c, w)).2.2)).
Proof.
  destruct cb as [event|event|event]; cbn [handler].
  - rewrite !onStepOn_eq. by exists v.
  - rewrite !onStepOff_eq. destruct (scan (block event)); by exists v.
  - destruct (init c) eqn:Hinit.
    + destruct (triggered c) eqn:Htrig.
      * rewrite (onTick_triggered_eq event c w), (onTick_triggered_eq event _ w) by done.
        destruct (scan (block event)); by exists v.
      * rewrite (onTick_idle_eq event c w), (onTick_idle_eq event _ w) by done.
        by exists v.
    + rewrite (onTick_init_eq event c w), (onTick_init_eq event _ w) by done.
      change (parameterTags (with_continuous c v)) with (parameterTags c).
      destruct (getParamValue _ _) as [value|e]; cbn [fst snd].
      * by eexists.
      * by exists v.
Qed.

End Continuous.

(** X21.  No handler reads the [continuous] flag: two instances that differ
    in that flag only go through any sequence of callbacks with the same
    world at the end (the same damage calls, the same persisted states) and
    instances that again differ in that flag at most. *)
Theorem continuous_is_never_read
    (cbs : list Callback) (c : DamageOnStepComponent) (w : World) (v : bool) :
  ∃ v', run cbs (with_continuous c v, w)
        = (with_continuous (run cbs (c, w)).1 v', (run cbs (c, w)).2).
Proof.
  revert c w v. induction cbs as [|cb cbs IH]; intros c w v.
  - by exists v.
  - cbn [run].
    destruct (handler_with_continuous cb c w v) as [v1 ->]. cbn [snd].
    destruct (handler cb (c, w)) as [r [c1 w1]]. cbn [fst snd].
    apply IH.
Qed.

(** * The two tags of a component *)

Section Occurrences.

Lemma includes_drop_chars (s p : string) :
  includes s p = true → ∃ k, startsWith p (drop_chars k s) = true.
Proof.
  induction s as [|a s IH]; cbn [includes].
  - rewrite orb_false_r. intros H. by exists 0%nat.
  - intros [H|H]%orb_true_iff; [by exists 0%nat|].
    destruct (IH H) as [k Hk]. by exists (S k).
Qed.

Lemma startsWith_append (a b s : string) :
  startsWith (a +:+ b) s = true → startsWith b (drop_chars (String.length a) s) = true.
Proof.
  revert s. induction a as [|ch a IH]; intros s; [done|].
  change (String ch a +:+ b) with (String ch (a +:+ b)).
  destruct s as [|ch' s]; cbn [startsWith]; [done|].
  destruct (Ascii.eqb ch ch'); [|done]. apply IH.
Qed.

Lemma drop_chars_empty (n : nat) : drop_chars n "" = "".
Proof. by destruct n. Qed.

Lemma drop_chars_drop_chars (n k : nat) (s : string) :
  drop_chars n (drop_chars k s) = drop_chars (k + n) s.
Proof.
  revert s. induction k as [|k IH]; intros s; [done|].
  destruct s as [|a s]; cbn [drop_chars Nat.add]; [|apply IH].
  by rewrite !drop_chars_empty.
Qed.

Lemma drop_chars_past_prefix (a t : string) (k : nat) :
  drop_chars (String.length a + k) (a +:+ t) = drop_chars k t.
Proof.
  induction a as [|ch a IH]; [done|].
  change (String ch a +:+ t) with (String ch (a +:+ t)). exact IH.
Qed.

(** Nowhere in [_continuous] does [_damage] start. *)
Lemma no_damage_in_continuous (k : nat) :
  startsWith "_damage" (drop_chars k "_continuous") = false.
Proof. do 12 (destruct k as [|k]; [reflexivity|]). reflexivity. Qed.

End Occurrences.

(** X22.  Whatever the identifier of the component, its continuous tag does
    not include its damage key: the substring search of the value lookup
    never takes the continuous tag for a damage tag, and on a block that
    carries the continuous tag only the lookup of the damage throws. *)
Theorem continuous_tag_is_no_damage_tag (c : DamageOnStepComponent) :
  includes (continuous_tag (parameterTags c)) (damage_tag (parameterTags c)) = false ∧
  ∃ e, getParamValue (damage_tag (parameterTags c)) [continuous_tag (parameterTags c)]
       = Throw e.
Proof.
  assert (includes (continuous_tag (parameterTags c)) (damage_tag (parameterTags c))
          = false) as Hno.
  { cbn [parameterTags damage_tag continuous_tag].
    destruct (includes _ _) eqn:Hinc; [|done].
    apply includes_drop_chars in Hinc as [k Hk].
    apply startsWith_append in Hk.
    rewrite drop_chars_drop_chars, Nat.add_comm, drop_chars_past_prefix in Hk.
    by rewrite no_damage_in_continuous in Hk. }
  split; [done|].
  apply getParamValue_no_match. by constructor.
Qed.
